(** * Reverse-and-subtract sequences: a model of [seq2.py]

    The development embeds the four functions of [seq2.py]
    ([reverse_number], [get_canonical_loop], [find_ending_loop_for_number],
    [analyze_number_range]) together with the range checks of the interactive
    caller, and proves the properties the specification states about them.

    Modelling conventions.
    - A Python [int] is a [Z]; integers are unbounded, and the interpreter's
      configurable limit on the length of int/str conversions is not modelled.
    - A Python [str] is a [list ascii] (ASCII text only).
    - The dynamically typed arguments range over [pyval]: [int], [bool],
      [str] and [None].  Floats are not part of the model.
    - The dictionary [seen_numbers] is a [gmap Z nat]; the frequency table,
      whose iteration order feeds [sorted], is an insertion-ordered
      association list.
    - The [while] loop takes a fuel argument; [OutOfFuel] is the model's
      answer when the fuel runs out and corresponds to no Python behaviour.
    - Console output ([print]) and the files written at the end are left
      out, except for the summary lines and for the transcript of a verbose
      run, which are returned as data. *)

From Stdlib Require Import ZArith Ascii String List Lia Permutation Sorted.
From stdpp Require Import gmap list.
Import ListNotations.

#[local] Open Scope Z_scope.

(** ** Python values, exceptions, outcomes *)

Definition pystr := list ascii.

Definition lit (s : string) : pystr := list_ascii_of_string s.

Inductive pyval : Type :=
| PyInt (n : Z)
| PyBool (b : bool)
| PyStr (s : pystr)
| PyNone.

Inductive exn : Type :=
| ValueError (msg : pystr)        (* [raise ValueError(msg)] *)
| InvalidLiteral (text : pystr)   (* the [ValueError] of [int(text)] *)
| NotInList (x : Z)               (* the [ValueError] of [list.index(x)] *)
| KeyError (key : Z).

Inductive outcome (A : Type) : Type :=
| Ok (a : A)
| Raise (e : exn)
| OutOfFuel.

Arguments Ok {A} a.
Arguments Raise {A} e.
Arguments OutOfFuel {A}.

#[global] Instance outcome_bind : MBind outcome := fun A B k m =>
  match m with
  | Ok a => k a
  | Raise e => Raise e
  | OutOfFuel => OutOfFuel
  end.

(** ** [str] and [int] *)

Definition digit_char (d : Z) : ascii := ascii_of_nat (48 + Z.to_nat d).

(** Decimal digits of a non-negative integer, least significant first. *)
Fixpoint digits_lsb (fuel : nat) (n : Z) : list Z :=
  match fuel with
  | O => []
  | S fuel' =>
      if n <? 10 then [n] else (n mod 10) :: digits_lsb fuel' (n / 10)
  end.

Definition decimal_digits (n : Z) : list Z :=
  rev (digits_lsb (S (Z.to_nat (Z.log2 n))) n).

(** [str(n)] for an [int]. *)
Definition str_int (n : Z) : pystr :=
  if n <? 0 then "-"%char :: map digit_char (decimal_digits (- n))
  else map digit_char (decimal_digits n).

(** [str(v)]. *)
Definition str (v : pyval) : pystr :=
  match v with
  | PyInt n => str_int n
  | PyBool true => lit "True"
  | PyBool false => lit "False"
  | PyStr s => s
  | PyNone => lit "None"
  end.

Definition is_space (c : ascii) : bool :=
  let n := nat_of_ascii c in
  (((9 <=? n) && (n <=? 13)) || ((28 <=? n) && (n <=? 32)))%nat.

Definition digit_of (c : ascii) : option Z :=
  let n := Z.of_nat (nat_of_ascii c) in
  if (48 <=? n) && (n <=? 57) then Some (n - 48) else None.

Fixpoint lstrip (s : pystr) : pystr :=
  match s with
  | c :: s' => if is_space c then lstrip s' else s
  | [] => []
  end.

Definition strip (s : pystr) : pystr := rev (lstrip (rev (lstrip s))).

(** Decimal digits of an integer literal: at least one digit, single
    underscores allowed between digits only. *)
Fixpoint parse_digits (acc : Z) (after_digit : bool) (s : pystr) : option Z :=
  match s with
  | [] => if after_digit then Some acc else None
  | c :: s' =>
      match digit_of c with
      | Some d => parse_digits (10 * acc + d) true s'
      | None =>
          if Ascii.eqb c "_" && after_digit then parse_digits acc false s'
          else None
      end
  end.

Definition parse_int (s : pystr) : option Z :=
  match strip s with
  | c :: r =>
      if Ascii.eqb c "-" then Z.opp <$> parse_digits 0 false r
      else if Ascii.eqb c "+" then parse_digits 0 false r
      else parse_digits 0 false (c :: r)
  | [] => None
  end.

(** [int(s)] for a [str], base 10. *)
Definition int_of_str (s : pystr) : outcome Z :=
  match parse_int s with
  | Some n => Ok n
  | None => Raise (InvalidLiteral s)
  end.

(** ** [reverse_number] *)

Definition reverse_number (n : pyval) : outcome Z :=
  let s := str n in
  let s_to_reverse := if (length s =? 1)%nat then "0"%char :: s else s in
  int_of_str (rev s_to_reverse).

(** ** [get_canonical_loop] *)

(** [min(l)] for a non-empty list [x :: l]. *)
Definition py_min (x : Z) (l : list Z) : Z :=
  fold_left (fun m y => if y <? m then y else m) l x.

(** [l.index(x)]: position of the first occurrence. *)
Fixpoint py_index (x : Z) (l : list Z) : option nat :=
  match l with
  | [] => None
  | y :: l' => if y =? x then Some O else S <$> py_index x l'
  end.

Definition get_canonical_loop (loop_list : list Z) : outcome (list Z) :=
  match loop_list with
  | [] => Ok []
  | x :: rest =>
      let min_val := py_min x rest in
      match py_index min_val loop_list with
      | Some min_idx => Ok (drop min_idx loop_list ++ take min_idx loop_list)
      | None => Raise (NotInList min_val)
      end
  end.

(** [l[k:] + l[:k]], the rotation of [l] by [k] places. *)
Definition rotation (k : nat) (l : list Z) : list Z := drop k l ++ take k l.

(** ** [find_ending_loop_for_number] *)

Definition isinstance_int (v : pyval) : bool :=
  match v with
  | PyInt _ | PyBool _ => true
  | PyStr _ | PyNone => false
  end.

(** The integer an [int] or a [bool] stands for in comparisons, arithmetic
    and dictionary keys ([True == 1], [False == 0]). *)
Definition int_value (v : pyval) : option Z :=
  match v with
  | PyInt n => Some n
  | PyBool b => Some (Z.b2z b)
  | PyStr _ | PyNone => None
  end.

Record loop_state : Type := LoopState {
  seen_numbers : gmap Z nat;
  sequence : list Z;
  current_number : Z
}.

(** Lines 70-81: the value that follows [current_number]. *)
Definition next_number (current_number reversed_num : Z) : Z :=
  if current_number =? reversed_num then 0
  else if current_number >? reversed_num then current_number - reversed_num
  else reversed_num - current_number.

(** Lines 63-84, one pass through the body of the [while] loop.  [cur] is the
    object bound to [current_number] and [key] the integer it stands for. *)
Definition loop_body (st : loop_state) (cur : pyval) (key : Z) : outcome loop_state :=
  let seen' := <[key := length (sequence st)]> (seen_numbers st) in
  let sequence' := sequence st ++ [key] in
  reversed_num ← reverse_number cur;
  Ok (LoopState seen' sequence' (next_number key reversed_num)).

(** Lines 59-84. *)
Fixpoint while_loop (fuel : nat) (st : loop_state) : outcome loop_state :=
  match fuel with
  | O => OutOfFuel
  | S fuel' =>
      match seen_numbers st !! current_number st with
      | Some _ => Ok st
      | None =>
          st' ← loop_body st (PyInt (current_number st)) (current_number st);
          while_loop fuel' st'
      end
  end.

Definition initial_state (n : Z) : loop_state := LoopState ∅ [] n.

(** Lines 86-89. *)
Definition loop_of_state (st : loop_state) : outcome (list Z) :=
  match seen_numbers st !! current_number st with
  | Some loop_start_index => get_canonical_loop (drop loop_start_index (sequence st))
  | None => Raise (KeyError (current_number st))
  end.

Definition guard_message : pystr := lit "Input must be a non-negative integer.".

(** [initial_number < 0], evaluated on instances of [int] only. *)
Definition lt_zero (v : pyval) : bool :=
  match int_value v with
  | Some n => n <? 0
  | None => false
  end.

(** A [bool] is an instance of [int] and passes the guard of line 47, so the
    first pass of the loop runs on the [bool] object itself; every later
    value of [current_number] is an [int]. *)
Definition find_ending_loop_for_number (fuel : nat) (initial_number : pyval) : outcome (list Z) :=
  if negb (isinstance_int initial_number) || lt_zero initial_number
  then Raise (ValueError guard_message)
  else
    st ← match initial_number with
         | PyInt n => while_loop fuel (initial_state n)
         | PyBool b =>
             match fuel with
             | O => OutOfFuel
             | S fuel' =>
                 st' ← loop_body (initial_state (Z.b2z b)) (PyBool b) (Z.b2z b);
                 while_loop fuel' st'
             end
         | PyStr _ | PyNone => Raise (ValueError guard_message)
         end;
    loop_of_state st.

(** ** [analyze_number_range] *)

Definition freq_table := list (list Z * Z).

(** [loop_frequencies[loop] += 1] on a [defaultdict(int)]. *)
Fixpoint increment (loop : list Z) (freqs : freq_table) : freq_table :=
  match freqs with
  | [] => [(loop, 0 + 1)]
  | (k, c) :: rest =>
      if decide (k = loop) then (k, c + 1) :: rest
      else (k, c) :: increment loop rest
  end.

(** [range(a, b)]. *)
Definition py_range (a b : Z) : list Z := seqZ a (b - a).

(** Lines 114-118. *)
Fixpoint for_loop (fuel : nat) (range : list Z) (freqs : freq_table) : outcome freq_table :=
  match range with
  | [] => Ok freqs
  | i :: range' =>
      loop ← find_ending_loop_for_number fuel (PyInt i);
      for_loop fuel range' (increment loop freqs)
  end.

(** [a < b] on tuples of integers. *)
Fixpoint tuple_lt (a b : list Z) : bool :=
  match a, b with
  | [], [] => false
  | [], _ :: _ => true
  | _ :: _, [] => false
  | x :: a', y :: b' => if x =? y then tuple_lt a' b' else x <? y
  end.

(** [a < b] on the sort keys [(item[1], item[0])]. *)
Definition key_lt (a b : list Z * Z) : bool :=
  if snd a =? snd b then tuple_lt (fst a) (fst b) else snd a <? snd b.

Fixpoint insert_desc (x : list Z * Z) (l : freq_table) : freq_table :=
  match l with
  | [] => [x]
  | y :: l' => if key_lt y x then x :: y :: l' else y :: insert_desc x l'
  end.

(** [sorted(items, key=lambda item: (item[1], item[0]), reverse=True)]:
    a stable sort into descending key order. *)
Definition sorted_reverse (items : freq_table) : freq_table :=
  fold_left (fun acc x => insert_desc x acc) items [].

Fixpoint join (sep : pystr) (parts : list pystr) : pystr :=
  match parts with
  | [] => []
  | [p] => p
  | p :: parts' => p ++ sep ++ join sep parts'
  end.

(** [str(list(loop))]. *)
Definition str_list (loop : list Z) : pystr :=
  lit "[" ++ join (lit ", ") (map str_int loop) ++ lit "]".

(** Line 146. *)
Definition entry_line (item : list Z * Z) : pystr :=
  lit "  Loop: " ++ str_list (fst item) ++ lit "  <-  " ++ str_int (snd item)
    ++ lit " starting number(s) ended in this loop.".

Definition summary_head : pystr := lit "--- Loop Analysis Summary ---".
Definition summary_empty : pystr := lit "No numbers were processed or no loops found.".
Definition summary_end : pystr := lit "--- End of Summary ---".

(** What one call leaves behind: the table, the sorted entries (absent when
    the function returns at line 135) and the lines of the summary. *)
Record analysis : Type := Analysis {
  loop_frequencies : freq_table;
  sorted_loops : option freq_table;
  summary_lines : list pystr
}.

Definition analyze_number_range (fuel : nat) (start_range end_range : Z) : outcome analysis :=
  let total_numbers_to_process := end_range - start_range + 1 in
  freqs ← for_loop fuel (py_range start_range (end_range + 1)) [];
  let summary := [summary_head] in
  match freqs with
  | [] => Ok (Analysis freqs None (summary ++ [summary_empty]))
  | _ :: _ =>
      let sorted := sorted_reverse freqs in
      Ok (Analysis freqs (Some sorted)
            (summary
             ++ [lit "Analysis of numbers from " ++ str_int start_range
                   ++ lit " to " ++ str_int end_range;
                 lit "Total numbers processed: " ++ str_int total_numbers_to_process;
                 lit "Found " ++ str_int (Z.of_nat (length sorted))
                   ++ lit " distinct loop type(s):";
                 []]
             ++ map entry_line sorted
             ++ [summary_end]))
  end.

(** ** The range checks of the interactive caller (lines 259-274) *)

Inductive mode2_result : Type :=
| Rejected (message : pystr)
| Analysed (r : outcome analysis).

Definition main_mode2 (fuel : nat) (start_val end_val : Z) : mode2_result :=
  if (start_val <? 0) || (end_val <? 0)
  then Rejected (lit "Range values must be non-negative integers.")
  else if end_val <? start_val
  then Rejected (lit "End of range cannot be less than the start of the range.")
  else Analysed (analyze_number_range fuel start_val end_val).

(** * Notions used in the statements *)

(** A decimal digit. *)
Definition is_digit (d : Z) : Prop := 0 <= d <= 9.

(** The number a list of digits denotes, most significant digit first. *)
Definition value_msb (ds : list Z) : Z := fold_left (fun a d => 10 * a + d) ds 0.

(** [ds] is the decimal representation of [n], most significant digit
    first: digits only, at least one, no leading zero except for ["0"]. *)
Definition decimal_repr (ds : list Z) (n : Z) : Prop :=
  Forall is_digit ds
  /\ (exists d ds', ds = d :: ds' /\ (d <> 0 \/ ds' = []))
  /\ value_msb ds = n.

(** The digit list handed to [int] by [reverse_number n], for [0 <= n]. *)
Definition reversed_digits (n : Z) : list Z :=
  let ds := digits_lsb (S (Z.to_nat (Z.log2 n))) n in
  if (length ds =? 1)%nat then ds ++ [0] else ds.

(** The least element of [l] occurs in it once. *)
Definition least_once (l : list Z) : Prop :=
  forall m, m ∈ l -> Forall (fun y => m <= y) l -> count_occ Z.eq_dec l m = 1%nat.

Definition below (M : Z) (x : Z) : Prop := 0 <= x < M.

(** The invariant of the [while] loop, for a property [P] of values:
    [seen_numbers] maps each value of [sequence] to its position, the values
    of [sequence] are distinct, and all values satisfy [P]. *)
Definition loop_inv (P : Z -> Prop) (st : loop_state) : Prop :=
  NoDup (sequence st)
  /\ (forall x i, seen_numbers st !! x = Some i <-> sequence st !! i = Some x)
  /\ Forall P (sequence st)
  /\ P (current_number st).

(** [sum(loop_frequencies.values())]. *)
Definition total_count (freqs : freq_table) : Z :=
  foldr (fun item s => snd item + s) 0 freqs.

(** Lexicographic order on tuples, spelled out: a proper prefix comes first,
    otherwise the first differing position decides. *)
Inductive lex_lt : list Z -> list Z -> Prop :=
| lex_lt_nil y b : lex_lt [] (y :: b)
| lex_lt_head x y a b : x < y -> lex_lt (x :: a) (y :: b)
| lex_lt_tail x a b : lex_lt a b -> lex_lt (x :: a) (x :: b).

(** [not_below a b]: the key of [a] is not less than the key of [b]. *)
Definition not_below (a b : list Z * Z) : Prop := key_lt a b = false.

(** ** [find_ending_loop_for_number] with [verbose=True]

    Every [print] call adds one entry to the transcript, in order; the
    newline [print] appends is left out, one inside the text is kept. *)

Definition transcript := list pystr.

Definition dashes : pystr := repeat "-"%char 20.

(** Lines 60-84: one pass through the body, with what it prints.  The first
    line is printed before [reverse_number] is called. *)
Definition loop_body_verbose (step : Z) (st : loop_state) (cur : pyval) (key : Z)
  : transcript * outcome loop_state :=
  let current_line := lit "  Step " ++ str_int step ++ lit ": Current = " ++ str cur in
  match reverse_number cur with
  | Ok reversed_num =>
      let reversed_line :=
        lit "    Reversed = " ++ str_int reversed_num
          ++ lit " (single digits 'N' treated as '0N' for reversal)" in
      let next_line :=
        if key =? reversed_num
        then lit "    " ++ str cur ++ lit " == " ++ str_int reversed_num ++ lit ", next = 0"
        else if key >? reversed_num
        then lit "    " ++ str cur ++ lit " - " ++ str_int reversed_num
               ++ lit " = " ++ str_int (key - reversed_num)
        else lit "    " ++ str_int reversed_num ++ lit " - " ++ str cur
               ++ lit " = " ++ str_int (reversed_num - key) in
      ([current_line; reversed_line; next_line],
       Ok (LoopState (<[key := length (sequence st)]> (seen_numbers st))
             (sequence st ++ [key]) (next_number key reversed_num)))
  | Raise e => ([current_line], Raise e)
  | OutOfFuel => ([current_line], OutOfFuel)
  end.

(** Lines 59-84 with [verbose=True]; [step] is the counter of line 53. *)
Fixpoint while_loop_verbose (fuel : nat) (step : Z) (st : loop_state)
  : transcript * outcome loop_state :=
  match fuel with
  | O => ([], OutOfFuel)
  | S fuel' =>
      match seen_numbers st !! current_number st with
      | Some _ => ([], Ok st)
      | None =>
          match loop_body_verbose step st (PyInt (current_number st)) (current_number st) with
          | (out, Ok st') =>
              let (out', res) := while_loop_verbose fuel' (step + 1) st' in
              (out ++ out', res)
          | (out, Raise e) => (out, Raise e)
          | (out, OutOfFuel) => (out, OutOfFuel)
          end
      end
  end.

(** Lines 86-97 with [verbose=True]. *)
Definition loop_of_state_verbose (st : loop_state) : transcript * outcome (list Z) :=
  match seen_numbers st !! current_number st with
  | Some loop_start_index =>
      let actual_loop_list := drop loop_start_index (sequence st) in
      match get_canonical_loop actual_loop_list with
      | Ok canonical_form =>
          ([lit "  Loop detected. Current number " ++ str_int (current_number st)
              ++ lit " was first seen at sequence index "
              ++ str_int (Z.of_nat loop_start_index) ++ lit ".";
            lit "  Raw loop sequence: " ++ str_list actual_loop_list;
            lit "  Canonical loop: " ++ str_list canonical_form;
            dashes],
           Ok canonical_form)
      | Raise e => ([], Raise e)
      | OutOfFuel => ([], OutOfFuel)
      end
  | None => ([], Raise (KeyError (current_number st)))
  end.

(** [find_ending_loop_for_number(initial_number, verbose=True)]: what is
    printed, and the result. *)
Definition find_ending_loop_verbose (fuel : nat) (initial_number : pyval)
  : transcript * outcome (list Z) :=
  if negb (isinstance_int initial_number) || lt_zero initial_number
  then ([], Raise (ValueError guard_message))
  else
    let header :=
      [("010"%char :: lit "Processing number: ") ++ str initial_number; dashes] in
    let (out, res) :=
      match initial_number with
      | PyInt n => while_loop_verbose fuel 0 (initial_state n)
      | PyBool b =>
          match fuel with
          | O => ([], OutOfFuel)
          | S fuel' =>
              match loop_body_verbose 0 (initial_state (Z.b2z b)) (PyBool b) (Z.b2z b) with
              | (out, Ok st') =>
                  let (out', res) := while_loop_verbose fuel' 1 st' in
                  (out ++ out', res)
              | (out, Raise e) => (out, Raise e)
              | (out, OutOfFuel) => (out, OutOfFuel)
              end
          end
      | PyStr _ | PyNone => ([], Raise (ValueError guard_message))
      end in
    match res with
    | Ok st =>
        let (out', res') := loop_of_state_verbose st in
        (header ++ out ++ out', res')
    | Raise e => (header ++ out, Raise e)
    | OutOfFuel => (header ++ out, OutOfFuel)
    end.

(** ** Further notions used in the statements *)

(** The value that follows [x]: lines 66-83 for one value. *)
Definition step_value (x : Z) : outcome Z :=
  reversed_num ← reverse_number (PyInt x); Ok (next_number x reversed_num).

(** [chain l]: each element of [l] is followed by its successor under
    [step_value]. *)
Inductive chain : list Z -> Prop :=
| chain_nil : chain []
| chain_one x : chain [x]
| chain_cons x y l : step_value x = Ok y -> chain (y :: l) -> chain (x :: y :: l).

(** [ends_in n t]: cycle detection started at [n] returns [t]. *)
Definition ends_in (n : Z) (t : list Z) : Prop :=
  exists fuel, find_ending_loop_for_number fuel (PyInt n) = Ok t.

(** [loop_frequencies.get(loop, 0)]. *)
Fixpoint count_of (loop : list Z) (freqs : freq_table) : Z :=
  match freqs with
  | [] => 0
  | (k, c) :: rest => if decide (k = loop) then c else count_of loop rest
  end.

(** * Sanity checks *)

Example reverse_number_9 : reverse_number (PyInt 9) = Ok 90.
Proof. reflexivity. Qed.

Example reverse_number_120 : reverse_number (PyInt 120) = Ok 21.
Proof. reflexivity. Qed.

Example reverse_number_neg : reverse_number (PyInt (-5)) = Raise (InvalidLiteral (lit "5-")).
Proof. reflexivity. Qed.

Example reverse_number_true : reverse_number (PyBool true) = Raise (InvalidLiteral (lit "eurT")).
Proof. reflexivity. Qed.

(** A [bool] is an instance of [int]: it passes the guard and fails in the
    first pass of the loop, inside [reverse_number]. *)
Example find_ending_loop_true :
  find_ending_loop_for_number 0 (PyBool true) = OutOfFuel
  /\ find_ending_loop_for_number 1 (PyBool true) = Raise (InvalidLiteral (lit "eurT")).
Proof. split; reflexivity. Qed.

Example find_ending_loop_9 :
  find_ending_loop_for_number 100 (PyInt 9) = Ok [9; 81; 63; 27; 45].
Proof. vm_compute. reflexivity. Qed.

Example find_ending_loop_12345 :
  find_ending_loop_for_number 100 (PyInt 12345) = Ok [2178; 6534].
Proof. vm_compute. reflexivity. Qed.


(** * Decimal digits *)

Lemma digit_char_facts d :
  is_digit d ->
  digit_of (digit_char d) = Some d /\ is_space (digit_char d) = false
  /\ Ascii.eqb (digit_char d) "-" = false /\ Ascii.eqb (digit_char d) "+" = false.
Proof.
  intros Hd.
  assert (d = 0 \/ d = 1 \/ d = 2 \/ d = 3 \/ d = 4 \/ d = 5 \/ d = 6
          \/ d = 7 \/ d = 8 \/ d = 9) as Hc by (unfold is_digit in Hd; lia).
  repeat (destruct Hc as [-> | Hc]); try subst d; vm_compute; auto.
Qed.

Lemma fold_digits_shift ds acc :
  fold_left (fun a d => 10 * a + d) ds acc
  = acc * 10 ^ Z.of_nat (length ds) + value_msb ds.
Proof.
  unfold value_msb. revert acc.
  induction ds as [|d ds IH]; intros acc; simpl fold_left.
  - simpl. lia.
  - rewrite IH, (IH (10 * 0 + d)).
    replace (Z.of_nat (length (d :: ds))) with (Z.succ (Z.of_nat (length ds)))
      by (simpl length; lia).
    rewrite Z.pow_succ_r by lia. lia.
Qed.

Lemma value_msb_cons d ds :
  value_msb (d :: ds) = d * 10 ^ Z.of_nat (length ds) + value_msb ds.
Proof.
  unfold value_msb at 1. simpl fold_left. rewrite fold_digits_shift. lia.
Qed.

Lemma value_msb_snoc ds d : value_msb (ds ++ [d]) = 10 * value_msb ds + d.
Proof. unfold value_msb. rewrite fold_left_app. reflexivity. Qed.

Lemma value_msb_bound ds :
  Forall is_digit ds -> 0 <= value_msb ds < 10 ^ Z.of_nat (length ds).
Proof.
  induction ds as [|d ds IH] using rev_ind; intros Hds.
  - vm_compute. split; [discriminate | reflexivity].
  - apply Forall_app in Hds as [Hds Hd]. inversion Hd as [|? ? Hd' _]; subst.
    specialize (IH Hds). rewrite value_msb_snoc, length_app. simpl length.
    replace (Z.of_nat (length ds + 1)) with (Z.succ (Z.of_nat (length ds))) by lia.
    rewrite Z.pow_succ_r by lia. unfold is_digit in Hd'. lia.
Qed.

Lemma parse_digits_digits ds acc b :
  Forall is_digit ds -> ds <> [] \/ b = true ->
  parse_digits acc b (map digit_char ds)
  = Some (fold_left (fun a d => 10 * a + d) ds acc).
Proof.
  intros Hds. revert acc b.
  induction Hds as [|d ds Hd Hds IH]; intros acc b Hne.
  - destruct Hne as [Hne | ->]; [congruence | reflexivity].
  - cbn [map parse_digits]. destruct (digit_char_facts d Hd) as (-> & _).
    apply IH. now right.
Qed.

Lemma lstrip_digits ds :
  Forall is_digit ds -> lstrip (map digit_char ds) = map digit_char ds.
Proof.
  intros Hds. destruct Hds as [|d ds Hd Hds]; [reflexivity |].
  cbn [map lstrip]. destruct (digit_char_facts d Hd) as (_ & -> & _). reflexivity.
Qed.

Lemma strip_digits ds :
  Forall is_digit ds -> strip (map digit_char ds) = map digit_char ds.
Proof.
  intros Hds. unfold strip. rewrite lstrip_digits by assumption.
  rewrite <- map_rev, lstrip_digits by (apply Forall_rev; assumption).
  rewrite map_rev. apply rev_involutive.
Qed.

Lemma int_of_str_digits ds :
  Forall is_digit ds -> ds <> [] ->
  int_of_str (map digit_char ds) = Ok (value_msb ds).
Proof.
  intros Hds Hne. unfold int_of_str, parse_int. rewrite strip_digits by assumption.
  destruct Hds as [|d ds Hd Hds]; [congruence |].
  change (map digit_char (d :: ds)) with (digit_char d :: map digit_char ds).
  destruct (digit_char_facts d Hd) as (_ & _ & -> & ->).
  change (digit_char d :: map digit_char ds) with (map digit_char (d :: ds)).
  rewrite parse_digits_digits; [reflexivity | now constructor | now left].
Qed.

Lemma digits_lsb_S fuel n :
  digits_lsb (S fuel) n
  = if n <? 10 then [n] else (n mod 10) :: digits_lsb fuel (n / 10).
Proof. reflexivity. Qed.

Lemma digits_lsb_small fuel n :
  0 <= n < 10 ->
  let ds := digits_lsb (S fuel) n in
  Forall is_digit ds /\ value_msb (rev ds) = n
  /\ (n < 10 -> ds = [n])
  /\ (10 <= n -> (2 <= length ds)%nat /\ 10 ^ (Z.of_nat (length ds) - 1) <= n).
Proof.
  intros Hn. cbn zeta. rewrite digits_lsb_S.
  destruct (Z.ltb_spec n 10) as [_ | Hbig]; [|lia].
  split; [|split; [|split]].
  - repeat constructor; unfold is_digit; lia.
  - unfold value_msb. simpl. lia.
  - reflexivity.
  - lia.
Qed.

(** What [digits_lsb] computes once the fuel covers the number. *)
Lemma digits_lsb_spec fuel n :
  0 <= n -> n < 2 ^ Z.of_nat (S fuel) ->
  let ds := digits_lsb (S fuel) n in
  Forall is_digit ds /\ value_msb (rev ds) = n
  /\ (n < 10 -> ds = [n])
  /\ (10 <= n -> (2 <= length ds)%nat /\ 10 ^ (Z.of_nat (length ds) - 1) <= n).
Proof.
  revert n. induction fuel as [|fuel IH]; intros n Hn Hlt.
  { apply digits_lsb_small. change (2 ^ Z.of_nat 1) with 2 in Hlt. lia. }
  destruct (Z.lt_ge_cases n 10) as [Hsmall | Hbig].
  { apply digits_lsb_small. lia. }
  assert (0 <= n / 10) as H0 by (apply Z.div_pos; lia).
  assert (n / 10 < 2 ^ Z.of_nat (S fuel)) as Hf.
  { apply Z.div_lt_upper_bound; [lia |].
    rewrite (Nat2Z.inj_succ (S fuel)), Z.pow_succ_r in Hlt by lia. lia. }
  destruct (IH (n / 10) H0 Hf) as (Hds & Hval & Hone & Hmany).
  cbn zeta. rewrite digits_lsb_S.
  destruct (Z.ltb_spec n 10) as [? | _]; [lia |].
  set (ds := digits_lsb (S fuel) (n / 10)) in *.
  assert (ds <> [] /\ 10 ^ (Z.of_nat (length ds) - 1) <= n / 10) as [Hne Hp].
  { destruct (Z.lt_ge_cases (n / 10) 10) as [Hs | Hb].
    - rewrite (Hone Hs). split; [discriminate |].
      change (10 ^ (Z.of_nat (length [n / 10]) - 1)) with 1.
      apply Z.div_le_lower_bound; lia.
    - destruct (Hmany Hb) as [Hlen Hpow]. split; [|exact Hpow].
      destruct ds; [simpl in Hlen; lia | discriminate]. }
  assert (1 <= Z.of_nat (length ds)) as Hlen1
    by (destruct ds; [congruence | simpl length; lia]).
  split; [|split; [|split]].
  - constructor; [|assumption]. unfold is_digit.
    pose proof (Z.mod_pos_bound n 10). lia.
  - simpl rev. rewrite value_msb_snoc, Hval.
    pose proof (Z.div_mod n 10). lia.
  - lia.
  - intros _. simpl length. split; [lia |].
    replace (Z.of_nat (S (length ds)) - 1)
      with (Z.succ (Z.of_nat (length ds) - 1)) by lia.
    rewrite Z.pow_succ_r by lia.
    pose proof (Z.mul_div_le n 10). lia.
Qed.

Lemma fuel_covers n : 0 <= n -> n < 2 ^ Z.of_nat (S (Z.to_nat (Z.log2 n))).
Proof.
  intros Hn. pose proof (Z.log2_nonneg n).
  rewrite Nat2Z.inj_succ, Z2Nat.id by assumption.
  destruct (Z.eq_dec n 0) as [-> | Hne]; [reflexivity |].
  apply Z.log2_spec. lia.
Qed.

(** The digits [str] prints, least significant first. *)
Lemma digits_of_nonneg n :
  0 <= n ->
  let ds := digits_lsb (S (Z.to_nat (Z.log2 n))) n in
  Forall is_digit ds /\ ds <> [] /\ value_msb (rev ds) = n
  /\ (length ds = 1%nat <-> n < 10)
  /\ (10 <= n -> 10 ^ (Z.of_nat (length ds) - 1) <= n).
Proof.
  intros Hn.
  destruct (digits_lsb_spec _ n Hn (fuel_covers n Hn)) as (Hds & Hval & Hone & Hmany).
  cbn zeta. set (ds := digits_lsb _ n) in *.
  destruct (Z.lt_ge_cases n 10) as [Hs | Hb].
  - pose proof (Hone Hs) as Heq.
    split_and!; [assumption | congruence | assumption | | lia].
    rewrite Heq. simpl. lia.
  - destruct (Hmany Hb) as [Hlen Hpow].
    split_and!; [assumption | | assumption | lia | auto].
    intros Heq. rewrite Heq in Hlen. simpl in Hlen. lia.
Qed.

Lemma str_int_nonneg n :
  0 <= n -> str_int n = map digit_char (decimal_digits n).
Proof. intros Hn. unfold str_int. destruct (Z.ltb_spec n 0); [lia | reflexivity]. Qed.

Lemma reversed_digits_facts n :
  0 <= n ->
  Forall is_digit (reversed_digits n) /\ reversed_digits n <> []
  /\ (n < 10 -> reversed_digits n = [n; 0])
  /\ (10 <= n -> 10 ^ (Z.of_nat (length (reversed_digits n)) - 1) <= n).
Proof.
  intros Hn. destruct (digits_of_nonneg n Hn) as (Hds & Hne & Hval & Hone & Hmany).
  unfold reversed_digits. cbn zeta in *. set (ds := digits_lsb _ n) in *.
  destruct (Nat.eqb_spec (length ds) 1) as [Hl | Hl].
  - assert (n < 10) as Hs by (apply Hone; exact Hl).
    destruct ds as [|d [|? ?]]; try discriminate.
    unfold value_msb in Hval. simpl in Hval. assert (d = n) as -> by lia.
    split_and!; [| discriminate | reflexivity | lia].
    apply Forall_app; split; [assumption |]. repeat constructor; unfold is_digit; lia.
  - split_and!; [assumption | assumption | | assumption].
    intros Hs. apply Hone in Hs. congruence.
Qed.

(** [reverse_number] on a non-negative [int], in terms of digits. *)
Lemma reverse_number_digits n :
  0 <= n -> reverse_number (PyInt n) = Ok (value_msb (reversed_digits n)).
Proof.
  intros Hn. destruct (reversed_digits_facts n Hn) as (Hds & Hne & _).
  rewrite <- (int_of_str_digits _ Hds Hne).
  unfold reverse_number, str. rewrite str_int_nonneg by assumption.
  unfold reversed_digits, decimal_digits in *. cbn zeta in *.
  set (ds := digits_lsb _ n) in *. rewrite length_map, length_rev.
  destruct (length ds =? 1)%nat.
  - cbn [rev]. rewrite <- map_rev, rev_involutive, map_app. reflexivity.
  - rewrite <- map_rev, rev_involutive. reflexivity.
Qed.

(** Closed form of [reverse_number] below ten. *)
Lemma reverse_number_small n :
  0 <= n < 10 -> reverse_number (PyInt n) = Ok (10 * n).
Proof.
  intros Hn. rewrite reverse_number_digits by lia.
  destruct (reversed_digits_facts n) as (_ & _ & Hsmall & _); [lia |].
  rewrite Hsmall by lia. unfold value_msb. simpl. f_equal. lia.
Qed.

(** The reversal of a number below [10 ^ k] stays below [10 ^ k]. *)
Lemma reverse_number_bound n k :
  0 <= n < 10 ^ k -> 2 <= k ->
  exists r, reverse_number (PyInt n) = Ok r /\ 0 <= r < 10 ^ k.
Proof.
  intros [Hn Hlt] Hk. exists (value_msb (reversed_digits n)).
  split; [apply reverse_number_digits; assumption |].
  destruct (reversed_digits_facts n Hn) as (Hds & Hne & Hsmall & Hbig).
  pose proof (value_msb_bound _ Hds) as [Hlo Hhi]. split; [assumption |].
  eapply Z.lt_le_trans; [exact Hhi |].
  apply Z.pow_le_mono_r; [lia |].
  destruct (Z.lt_ge_cases n 10) as [Hs | Hb].
  - rewrite (Hsmall Hs). simpl. lia.
  - specialize (Hbig Hb).
    destruct (Z.le_gt_cases (Z.of_nat (length (reversed_digits n))) k) as [|Hgt];
      [assumption |].
    assert (10 ^ k <= 10 ^ (Z.of_nat (length (reversed_digits n)) - 1))
      by (apply Z.pow_le_mono_r; lia).
    lia.
Qed.


(** * The canonical form of a loop *)

Lemma py_min_fold l m :
  let r := fold_left (fun m y => if y <? m then y else m) l m in
  (r ∈ m :: l) /\ Forall (fun y => r <= y) (m :: l).
Proof.
  revert m. induction l as [|y l IH]; intros m; cbn zeta.
  - simpl. split; [left | repeat constructor; lia].
  - cbn [fold_left]. destruct (IH (if y <? m then y else m)) as [Hin Hle].
    set (r := fold_left _ l _) in *.
    apply Forall_cons in Hle as [Hhd Hle]. split.
    + apply elem_of_cons in Hin as [Hin | Hin].
      * rewrite Hin. destruct (y <? m); [right; left | left].
      * right; right; exact Hin.
    + destruct (Z.ltb_spec y m); repeat constructor; try lia; exact Hle.
Qed.

Lemma py_index_first m a b :
  m ∉ a -> py_index m (a ++ m :: b) = Some (length a).
Proof.
  induction a as [|y a IH]; intros Hnot; cbn [app py_index].
  - rewrite Z.eqb_refl. reflexivity.
  - apply not_elem_of_cons in Hnot as [Hne Hnot].
    destruct (Z.eqb_spec y m) as [-> | _]; [congruence |].
    rewrite (IH Hnot). reflexivity.
Qed.

(** A list split at the first occurrence of a least element is rotated to
    start there. *)
Lemma get_canonical_loop_split a m b :
  m ∉ a -> Forall (fun y => m <= y) (a ++ m :: b) ->
  get_canonical_loop (a ++ m :: b) = Ok (m :: b ++ a).
Proof.
  intros Hnot Hle. unfold get_canonical_loop.
  destruct (a ++ m :: b) as [|x rest] eqn:Heq; [destruct a; discriminate |].
  destruct (py_min_fold rest x) as [Hin Hmin]. cbn zeta in Hin, Hmin.
  fold (py_min x rest) in Hin, Hmin.
  assert (py_min x rest = m) as ->.
  { apply Z.le_antisymm.
    - rewrite Forall_forall in Hmin. apply Hmin.
      rewrite <- Heq. apply elem_of_app. right; left.
    - rewrite Forall_forall in Hle. apply Hle. exact Hin. }
  rewrite <- Heq, py_index_first by assumption.
  rewrite drop_app_length, take_app_length. reflexivity.
Qed.

(** [get_canonical_loop] never fails, and on a non-empty list it returns the
    list rotated to its first least element. *)
Lemma get_canonical_loop_shape l :
  l <> [] ->
  exists a m b, l = a ++ m :: b /\ (m ∉ a) /\ Forall (fun y => m <= y) l
                /\ get_canonical_loop l = Ok (m :: b ++ a).
Proof.
  intros Hne. destruct l as [|x rest]; [congruence |].
  destruct (py_min_fold rest x) as [Hin Hmin]. cbn zeta in Hin, Hmin.
  destruct (list_elem_of_split_l _ _ Hin) as (a & b & Heq & Hnot).
  exists a, (fold_left (fun m y => if y <? m then y else m) rest x), b.
  split_and!; [exact Heq | exact Hnot | exact Hmin |].
  rewrite Heq. apply get_canonical_loop_split; [exact Hnot |].
  rewrite <- Heq. exact Hmin.
Qed.

Lemma rotation_perm k l : rotation k l ≡ₚ l.
Proof.
  unfold rotation. rewrite Permutation_app_comm, take_drop. reflexivity.
Qed.

(** Rotating a list whose least element [m] occurs once leaves its canonical
    form unchanged. *)
Lemma get_canonical_loop_rotation_split k a m b :
  m ∉ a -> m ∉ b -> Forall (fun y => m <= y) (a ++ m :: b) ->
  get_canonical_loop (rotation k (a ++ m :: b)) = Ok (m :: b ++ a).
Proof.
  intros Ha Hb Hle.
  assert (Forall (fun y => m <= y) (rotation k (a ++ m :: b))) as Hle'
    by (rewrite rotation_perm; exact Hle).
  unfold rotation in *.
  destruct (Nat.le_gt_cases k (length a)) as [Hk | Hk].
  - rewrite drop_app_le, take_app_le in * by assumption.
    rewrite <- app_assoc in *. cbn [app] in *.
    rewrite get_canonical_loop_split; [| | exact Hle'].
    + rewrite <- app_assoc, take_drop. reflexivity.
    + intros Hin. apply Ha. eapply subseteq_drop, Hin.
  - rewrite drop_app_ge, take_app_ge in * by lia.
    destruct (k - length a)%nat as [|j] eqn:Hj; [lia |].
    cbn [drop take] in *.
    replace (drop j b ++ a ++ m :: take j b)
      with ((drop j b ++ a) ++ m :: take j b) in * by (rewrite <- app_assoc; reflexivity).
    rewrite get_canonical_loop_split; [| | exact Hle'].
    + rewrite app_assoc, take_drop. reflexivity.
    + intros Hin. apply elem_of_app in Hin as [Hin | Hin]; [|exact (Ha Hin)].
      apply Hb. eapply subseteq_drop, Hin.
Qed.

Lemma count_occ_once_split (a b : list Z) m :
  count_occ Z.eq_dec (a ++ m :: b) m = 1%nat -> (m ∉ a) /\ (m ∉ b).
Proof.
  rewrite count_occ_app, count_occ_cons_eq by reflexivity. intros Hc.
  rewrite !list_elem_of_In. split; apply (count_occ_not_In Z.eq_dec); lia.
Qed.

(** * The loop of [find_ending_loop_for_number] *)

Lemma while_loop_S fuel st :
  while_loop (S fuel) st
  = match seen_numbers st !! current_number st with
    | Some _ => Ok st
    | None =>
        st' ← loop_body st (PyInt (current_number st)) (current_number st);
        while_loop fuel st'
    end.
Proof. reflexivity. Qed.

Section Invariant.
(** [P] is any property of values that one reverse-subtract step keeps. *)
Variable P : Z -> Prop.
Hypothesis P_step :
  forall x, P x -> exists r, reverse_number (PyInt x) = Ok r /\ P (next_number x r).

Lemma loop_inv_initial n : P n -> loop_inv P (initial_state n).
Proof.
  intros Hn. unfold loop_inv, initial_state. cbn.
  split_and!; [constructor | | constructor | exact Hn].
  intros x i. rewrite lookup_empty, lookup_nil. split; discriminate.
Qed.

Lemma loop_body_inv st :
  loop_inv P st -> seen_numbers st !! current_number st = None ->
  exists r,
    reverse_number (PyInt (current_number st)) = Ok r
    /\ loop_body st (PyInt (current_number st)) (current_number st)
       = Ok (LoopState (<[current_number st := length (sequence st)]> (seen_numbers st))
               (sequence st ++ [current_number st])
               (next_number (current_number st) r))
    /\ loop_inv P (LoopState (<[current_number st := length (sequence st)]> (seen_numbers st))
                  (sequence st ++ [current_number st])
                  (next_number (current_number st) r)).
Proof.
  intros (Hnd & Hmap & Hall & Hcur) Hnew.
  destruct (P_step _ Hcur) as (r & Hr & Hnext). exists r.
  split; [exact Hr |]. split; [unfold loop_body; rewrite Hr; reflexivity |].
  set (c := current_number st) in *. set (s := sequence st) in *.
  assert (c ∉ s) as Hfresh.
  { intros Hin. apply list_elem_of_lookup in Hin as [i Hi].
    apply Hmap in Hi. congruence. }
  unfold loop_inv. cbn [seen_numbers sequence current_number].
  split_and!.
  - apply NoDup_app. split_and!; [exact Hnd | | apply NoDup_singleton].
    intros x Hx Hx'. apply list_elem_of_singleton in Hx'. congruence.
  - intros x i. destruct (decide (c = x)) as [<- | Hne].
    + rewrite lookup_insert_eq. split.
      * intros [= <-]. apply list_lookup_middle. reflexivity.
      * intros Hi. apply lookup_app_Some in Hi as [Hi | [Hlen Hi]].
        -- exfalso. apply Hfresh. eapply list_elem_of_lookup_2, Hi.
        -- apply list_lookup_singleton_Some in Hi as [Hi _]. f_equal. lia.
    + rewrite lookup_insert_ne by exact Hne. rewrite Hmap. split.
      * apply lookup_app_l_Some.
      * intros Hi. apply lookup_app_Some in Hi as [Hi | [Hlen Hi]]; [exact Hi |].
        apply list_lookup_singleton_Some in Hi as [_ Hi]. congruence.
  - apply Forall_app. split; [exact Hall | repeat constructor; exact Hcur].
  - exact Hnext.
Qed.

(** Whatever the fuel, the loop does not raise, and a state it returns
    satisfies the invariant, has met its current value before, and extends
    the sequence it started from. *)
Lemma while_loop_inv fuel st :
  loop_inv P st ->
  match while_loop fuel st with
  | Ok st' =>
      loop_inv P st' /\ is_Some (seen_numbers st' !! current_number st')
      /\ exists more, sequence st' = sequence st ++ more
  | Raise _ => False
  | OutOfFuel => True
  end.
Proof.
  revert st. induction fuel as [|fuel IH]; intros st Hinv; [exact I |].
  rewrite while_loop_S.
  destruct (seen_numbers st !! current_number st) as [i|] eqn:Hseen.
  - split_and!; [exact Hinv | rewrite Hseen; eauto |].
    exists []. rewrite app_nil_r. reflexivity.
  - destruct (loop_body_inv st Hinv Hseen) as (r & _ & -> & Hinv').
    cbn [mbind outcome_bind]. specialize (IH _ Hinv').
    destruct (while_loop fuel _) as [st' | e |]; [|exact IH | exact I].
    destruct IH as (Hi & Hs & more & Hmore). split_and!; [exact Hi | exact Hs |].
    exists (current_number st :: more). rewrite Hmore. cbn [sequence].
    rewrite <- app_assoc. reflexivity.
Qed.
End Invariant.

(** More fuel does not change the answer of a loop that has finished. *)
Lemma while_loop_fuel_mono fuel fuel' st st' :
  while_loop fuel st = Ok st' -> (fuel <= fuel')%nat -> while_loop fuel' st = Ok st'.
Proof.
  revert fuel' st. induction fuel as [|fuel IH]; intros fuel' st Hrun Hle;
    [discriminate |].
  destruct fuel' as [|fuel']; [lia |].
  rewrite while_loop_S in *.
  destruct (seen_numbers st !! current_number st); [exact Hrun |].
  destruct (loop_body st _ _) as [st1 | e |]; cbn [mbind outcome_bind] in *;
    try discriminate.
  apply IH; [exact Hrun | lia].
Qed.

(** Distinct values inside [0, M) are at most [M] many. *)
Lemma distinct_in_range_length (l : list Z) M :
  NoDup l -> Forall (fun x => 0 <= x < M) l -> (length l <= Z.to_nat M)%nat.
Proof.
  intros Hnd Hall. rewrite <- (length_seqZ 0 M).
  apply NoDup_incl_length; [apply NoDup_ListNoDup; exact Hnd |].
  intros x Hx. apply list_elem_of_In. apply list_elem_of_In in Hx.
  rewrite Forall_forall in Hall. apply Hall in Hx.
  apply elem_of_seqZ. lia.
Qed.

Lemma below_step k :
  2 <= k -> forall x, below (10 ^ k) x ->
  exists r, reverse_number (PyInt x) = Ok r /\ below (10 ^ k) (next_number x r).
Proof.
  intros Hk x Hx. destruct (reverse_number_bound x k Hx Hk) as (r & Hr & Hrb).
  exists r. split; [exact Hr |]. unfold below, next_number in *.
  destruct (Z.eqb_spec x r); [lia |]. destruct (Z.gtb_spec x r); lia.
Qed.

(** With values confined to [0, M), the loop stops once the fuel exceeds the
    number of values not yet in [sequence]. *)
Lemma while_loop_terminates k fuel st :
  2 <= k -> loop_inv (below (10 ^ k)) st ->
  (Z.to_nat (10 ^ k) < fuel + length (sequence st))%nat ->
  exists st', while_loop fuel st = Ok st'.
Proof.
  intros Hk. revert st. induction fuel as [|fuel IH]; intros st Hinv Hfuel.
  - destruct Hinv as (Hnd & _ & Hall & _).
    pose proof (distinct_in_range_length _ _ Hnd Hall). lia.
  - rewrite while_loop_S.
    destruct (seen_numbers st !! current_number st) as [i|] eqn:Hseen; [eauto |].
    destruct (loop_body_inv _ (below_step k Hk) st Hinv Hseen) as (r & _ & -> & Hinv').
    cbn [mbind outcome_bind]. apply IH; [exact Hinv' |].
    cbn [sequence]. rewrite length_app. simpl length. lia.
Qed.

Lemma least_once_NoDup l : NoDup l -> least_once l.
Proof.
  intros Hnd m Hm _. apply NoDup_ListNoDup in Hnd.
  apply list_elem_of_In in Hm.
  pose proof (proj1 (NoDup_count_occ Z.eq_dec l) Hnd m) as Hle.
  apply (count_occ_In Z.eq_dec) in Hm. lia.
Qed.

Lemma find_ending_int fuel n :
  0 <= n ->
  find_ending_loop_for_number fuel (PyInt n)
  = (st ← while_loop fuel (initial_state n); loop_of_state st).
Proof.
  intros Hn. unfold find_ending_loop_for_number, lt_zero.
  cbn [int_value isinstance_int negb orb].
  destruct (Z.ltb_spec n 0); [lia | reflexivity].
Qed.

(** The loop cut out of a final state: non-empty, led by its least value. *)
Lemma loop_of_state_shape P st :
  loop_inv P st -> is_Some (seen_numbers st !! current_number st) ->
  exists m rest,
    loop_of_state st = Ok (m :: rest)
    /\ Forall (fun y => m <= y) rest /\ Forall P (m :: rest)
    /\ NoDup (m :: rest).
Proof.
  intros (Hnd & Hmap & Hall & Hcur) [i Hi]. unfold loop_of_state. rewrite Hi.
  apply Hmap in Hi.
  assert (drop i (sequence st) <> []) as Hne.
  { intros Hnil. apply drop_nil_inv in Hnil. apply lookup_lt_Some in Hi. lia. }
  destruct (get_canonical_loop_shape _ Hne) as (a & m & b & Heq & _ & Hle & ->).
  exists m, (b ++ a). split; [reflexivity |].
  assert (m :: b ++ a ≡ₚ drop i (sequence st)) as Hperm.
  { rewrite Heq. rewrite (Permutation_app_comm a). reflexivity. }
  split_and!.
  - rewrite <- Hperm in Hle. apply Forall_cons in Hle as [_ Hle]. exact Hle.
  - rewrite Hperm. apply Forall_drop. exact Hall.
  - rewrite Hperm. eapply sublist_NoDup; [exact Hnd | apply sublist_drop].
Qed.

Lemma below_pow n : 0 <= n -> below (10 ^ Z.max 2 (n + 1)) n.
Proof.
  intros Hn. split; [exact Hn |].
  pose proof (Z.pow_gt_lin_r 10 (Z.max 2 (n + 1))). lia.
Qed.

(** Whatever the fuel, a result for a non-negative start is a non-empty
    tuple led by its least element, and all its elements are non-negative. *)
Lemma find_ending_partial fuel n t :
  0 <= n -> find_ending_loop_for_number fuel (PyInt n) = Ok t ->
  exists m rest, t = m :: rest /\ Forall (fun y => m <= y) rest
                 /\ Forall (fun y => 0 <= y) t /\ NoDup t.
Proof.
  intros Hn. rewrite find_ending_int by exact Hn. intros Hrun.
  set (k := Z.max 2 (n + 1)).
  pose proof (while_loop_inv _ (below_step k ltac:(lia)) fuel _
                (loop_inv_initial _ n (below_pow n Hn))) as Hw.
  destruct (while_loop fuel (initial_state n)) as [st | e |];
    cbn [mbind outcome_bind] in Hrun; try discriminate.
  destruct Hw as (Hinv & Hseen & _).
  destruct (loop_of_state_shape _ st Hinv Hseen) as (m & rest & Hl & Hle & Hall & Hnd).
  rewrite Hl in Hrun. injection Hrun as <-.
  exists m, rest. split_and!; [reflexivity | exact Hle | | exact Hnd].
  eapply Forall_impl; [exact Hall |]. intros y Hy. apply Hy.
Qed.

(** The loops cycle detection returns meet the condition under which the
    canonical form is invariant under rotation. *)
Lemma find_ending_least_once fuel n t :
  0 <= n -> find_ending_loop_for_number fuel (PyInt n) = Ok t -> least_once t.
Proof.
  intros Hn Hrun.
  destruct (find_ending_partial fuel n t Hn Hrun) as (_ & _ & _ & _ & _ & Hnd).
  apply least_once_NoDup. exact Hnd.
Qed.

(** Every non-negative start has a result, reached with any fuel above a
    bound that depends on the start only. *)
Lemma find_ending_total n :
  0 <= n ->
  exists fuel0 t,
    forall fuel, (fuel0 <= fuel)%nat -> find_ending_loop_for_number fuel (PyInt n) = Ok t.
Proof.
  intros Hn. set (k := Z.max 2 (n + 1)).
  assert (2 <= k) as Hk by lia.
  pose proof (loop_inv_initial _ n (below_pow n Hn)) as Hinit. fold k in Hinit.
  destruct (while_loop_terminates k (S (Z.to_nat (10 ^ k))) _ Hk Hinit) as [st Hst];
    [lia |].
  pose proof (while_loop_inv _ (below_step k Hk) (S (Z.to_nat (10 ^ k))) _ Hinit) as Hw.
  rewrite Hst in Hw. destruct Hw as (Hinv & Hseen & _).
  destruct (loop_of_state_shape _ st Hinv Hseen) as (m & rest & Hl & _).
  exists (S (Z.to_nat (10 ^ k))), (m :: rest). intros fuel Hfuel.
  rewrite find_ending_int by exact Hn.
  rewrite (while_loop_fuel_mono _ fuel _ _ Hst Hfuel). exact Hl.
Qed.

(** * The frequency table *)

Lemma increment_total loop freqs :
  total_count (increment loop freqs) = total_count freqs + 1.
Proof.
  induction freqs as [|[k c] freqs IH]; cbn [increment]; [reflexivity |].
  destruct (decide (k = loop)); unfold total_count in *; cbn [foldr snd] in *; lia.
Qed.

Lemma increment_keys loop freqs x :
  x ∈ map fst (increment loop freqs) <-> x = loop \/ x ∈ map fst freqs.
Proof.
  induction freqs as [|[k c] freqs IH]; cbn [increment].
  - cbn [map fst]. rewrite list_elem_of_singleton, elem_of_nil. tauto.
  - destruct (decide (k = loop)) as [-> | Hne]; cbn [map fst].
    + rewrite !elem_of_cons. tauto.
    + rewrite !elem_of_cons, IH. tauto.
Qed.

Lemma increment_NoDup loop freqs :
  NoDup (map fst freqs) -> NoDup (map fst (increment loop freqs)).
Proof.
  induction freqs as [|[k c] freqs IH]; cbn [increment]; intros Hnd.
  - cbn. apply NoDup_singleton.
  - cbn [map fst] in Hnd. apply NoDup_cons in Hnd as [Hk Hnd].
    destruct (decide (k = loop)) as [-> | Hne]; cbn [map fst].
    + apply NoDup_cons. split; assumption.
    + apply NoDup_cons. split; [|apply IH; exact Hnd].
      rewrite increment_keys. intros [-> | Hin]; [congruence | exact (Hk Hin)].
Qed.

Lemma increment_nonempty loop freqs : increment loop freqs <> [].
Proof. destruct freqs as [|[k c] freqs]; cbn [increment]; [|destruct (decide _)]; discriminate. Qed.

(** What a finished pass over the range has done to the table. *)
Lemma for_loop_result fuel range acc freqs :
  for_loop fuel range acc = Ok freqs ->
  total_count freqs = total_count acc + Z.of_nat (length range)
  /\ (NoDup (map fst acc) -> NoDup (map fst freqs))
  /\ (range <> [] -> freqs <> []).
Proof.
  revert acc. induction range as [|i range IH]; intros acc Hrun; cbn [for_loop] in Hrun.
  - injection Hrun as <-. split_and!; [simpl; lia | auto | congruence].
  - destruct (find_ending_loop_for_number fuel (PyInt i)) as [loop | e |];
      cbn [mbind outcome_bind] in Hrun; try discriminate.
    destruct (IH _ Hrun) as (Hsum & Hnd & Hne).
    split_and!.
    + rewrite Hsum, increment_total. simpl length. lia.
    + intros Hacc. apply Hnd, increment_NoDup, Hacc.
    + intros _. destruct range as [|j range].
      * cbn [for_loop] in Hrun. injection Hrun as <-. apply increment_nonempty.
      * apply Hne. discriminate.
Qed.

(** A pass over non-negative starting values finishes with one and the same
    table, given enough fuel. *)
Lemma for_loop_total range :
  Forall (fun i => 0 <= i) range ->
  exists fuel0, forall acc, exists freqs,
    forall fuel, (fuel0 <= fuel)%nat -> for_loop fuel range acc = Ok freqs.
Proof.
  induction 1 as [|i range Hi _ IH].
  - exists O. intros acc. exists acc. reflexivity.
  - destruct IH as [fuel1 IH]. destruct (find_ending_total i Hi) as (fuel2 & t & Ht).
    exists (Nat.max fuel1 fuel2). intros acc.
    destruct (IH (increment t acc)) as [freqs Hfreqs].
    exists freqs. intros fuel Hfuel. cbn [for_loop].
    rewrite Ht by lia. cbn [mbind outcome_bind]. apply Hfreqs. lia.
Qed.

Lemma py_range_facts a b :
  length (py_range a b) = Z.to_nat (b - a)
  /\ Forall (fun i => a <= i < b) (py_range a b).
Proof.
  unfold py_range. split; [apply length_seqZ |].
  apply Forall_forall. intros i Hi. apply elem_of_seqZ in Hi. lia.
Qed.

(** * Sorting the table *)

Lemma tuple_lt_spec a b : tuple_lt a b = true <-> lex_lt a b.
Proof.
  revert b. induction a as [|x a IH]; intros [|y b]; cbn [tuple_lt].
  - split; [discriminate | inversion 1].
  - split; [constructor | reflexivity].
  - split; [discriminate | inversion 1].
  - destruct (Z.eqb_spec x y) as [-> | Hne].
    + rewrite IH. split; [apply lex_lt_tail |].
      inversion 1; subst; [lia | assumption].
    + rewrite Z.ltb_lt. split; [apply lex_lt_head |].
      inversion 1; subst; [assumption | congruence].
Qed.

Lemma tuple_lt_irrefl a : tuple_lt a a = false.
Proof. induction a as [|x a IH]; cbn [tuple_lt]; [|rewrite Z.eqb_refl]; auto. Qed.

Lemma tuple_lt_trans a b c :
  tuple_lt a b = true -> tuple_lt b c = true -> tuple_lt a c = true.
Proof.
  revert b c. induction a as [|x a IH]; intros [|y b] [|z c]; cbn [tuple_lt];
    try congruence.
  destruct (Z.eqb_spec x y), (Z.eqb_spec y z), (Z.eqb_spec x z);
    rewrite ?Z.ltb_lt; try lia; try congruence.
  apply IH.
Qed.

Lemma tuple_lt_total a b :
  tuple_lt a b = false -> tuple_lt b a = false -> a = b.
Proof.
  revert b. induction a as [|x a IH]; intros [|y b]; cbn [tuple_lt];
    try congruence.
  destruct (Z.eqb_spec x y), (Z.eqb_spec y x); rewrite ?Z.ltb_ge; try lia.
  intros Hab Hba. subst. f_equal. apply IH; assumption.
Qed.

Lemma key_lt_irrefl a : key_lt a a = false.
Proof. unfold key_lt. rewrite Z.eqb_refl. apply tuple_lt_irrefl. Qed.

Lemma key_lt_trans a b c :
  key_lt a b = true -> key_lt b c = true -> key_lt a c = true.
Proof.
  unfold key_lt.
  destruct (Z.eqb_spec (snd a) (snd b)), (Z.eqb_spec (snd b) (snd c)),
    (Z.eqb_spec (snd a) (snd c)); rewrite ?Z.ltb_lt; try lia; try congruence.
  apply tuple_lt_trans.
Qed.

Lemma key_lt_total a b :
  key_lt a b = false -> key_lt b a = false -> a = b.
Proof.
  unfold key_lt. destruct a as [la ca], b as [lb cb]. cbn [fst snd].
  destruct (Z.eqb_spec ca cb), (Z.eqb_spec cb ca); rewrite ?Z.ltb_ge; try lia.
  intros Hab Hba. subst. f_equal. apply tuple_lt_total; assumption.
Qed.

Lemma key_lt_asym a b : key_lt a b = true -> key_lt b a = false.
Proof.
  intros Hab. destruct (key_lt b a) eqn:Hba; [|reflexivity].
  pose proof (key_lt_trans _ _ _ Hab Hba) as Haa.
  rewrite key_lt_irrefl in Haa. discriminate.
Qed.

Lemma insert_desc_perm x l : insert_desc x l ≡ₚ x :: l.
Proof.
  induction l as [|y l IH]; cbn [insert_desc]; [reflexivity |].
  destruct (key_lt y x); [reflexivity |]. rewrite IH. apply Permutation_swap.
Qed.

Lemma insert_desc_sorted x l :
  StronglySorted not_below l -> StronglySorted not_below (insert_desc x l).
Proof.
  induction 1 as [|y l Hl IH Hy]; cbn [insert_desc].
  - repeat constructor.
  - destruct (key_lt y x) eqn:Hyx.
    + constructor; [constructor; assumption |].
      constructor; [apply key_lt_asym; exact Hyx |].
      eapply Forall_impl; [exact Hy |]. intros z Hz. unfold not_below in *.
      destruct (key_lt x z) eqn:Hxz; [|reflexivity].
      rewrite (key_lt_trans _ _ _ Hyx Hxz) in Hz. discriminate.
    + constructor; [exact IH |].
      rewrite insert_desc_perm. constructor; assumption.
Qed.

Lemma sorted_reverse_from acc items :
  StronglySorted not_below acc ->
  let out := fold_left (fun acc x => insert_desc x acc) items acc in
  StronglySorted not_below out /\ out ≡ₚ acc ++ items.
Proof.
  revert acc. induction items as [|x items IH]; intros acc Hacc; cbn zeta.
  - cbn [fold_left]. rewrite app_nil_r. split; [exact Hacc | reflexivity].
  - cbn [fold_left].
    destruct (IH _ (insert_desc_sorted x _ Hacc)) as [Hs Hp].
    split; [exact Hs |]. rewrite Hp, insert_desc_perm.
    cbn [app]. apply Permutation_middle.
Qed.

Lemma sorted_reverse_spec items :
  StronglySorted not_below (sorted_reverse items) /\ sorted_reverse items ≡ₚ items.
Proof. apply (sorted_reverse_from [] items). constructor. Qed.

Lemma strongly_sorted_lookup {A} (R : A -> A -> Prop) (l : list A) i j a b :
  StronglySorted R l -> (i < j)%nat -> l !! i = Some a -> l !! j = Some b -> R a b.
Proof.
  intros Hs. revert i j. induction Hs as [|x l Hl IH Hx]; intros i j Hij Hi Hj.
  - rewrite lookup_nil in Hi. discriminate.
  - destruct j as [|j]; [lia |]. cbn in Hj. destruct i as [|i].
    + cbn in Hi. injection Hi as <-. rewrite Forall_forall in Hx.
      apply Hx. eapply list_elem_of_lookup_2, Hj.
    + cbn in Hi. apply (IH i j); [lia | assumption | assumption].
Qed.

(** In the sorted table of distinct loops, an earlier entry has the strictly
    greater key. *)
Lemma sorted_reverse_strict items i j a b :
  NoDup (map fst items) -> (i < j)%nat ->
  sorted_reverse items !! i = Some a -> sorted_reverse items !! j = Some b ->
  key_lt b a = true.
Proof.
  intros Hnd Hij Hi Hj. destruct (sorted_reverse_spec items) as [Hs Hp].
  pose proof (strongly_sorted_lookup _ _ _ _ _ _ Hs Hij Hi Hj) as Hab.
  destruct (key_lt b a) eqn:Hba; [reflexivity | exfalso].
  assert (a = b) as -> by (apply key_lt_total; assumption).
  rewrite <- Hp in Hnd. apply NoDup_fmap_1 in Hnd.
  pose proof (NoDup_lookup _ _ _ _ Hnd Hi Hj). lia.
Qed.

(** * Inputs outside the domain *)

Lemma parse_digits_stops ds acc b rest :
  Forall is_digit ds ->
  parse_digits acc b (map digit_char ds ++ "-"%char :: rest) = None.
Proof.
  intros Hds. revert acc b. induction Hds as [|d ds Hd Hds IH]; intros acc b.
  - reflexivity.
  - cbn [map app parse_digits]. destruct (digit_char_facts d Hd) as (-> & _).
    apply IH.
Qed.

(** [int] rejects a run of digits followed by a minus sign. *)
Lemma int_of_str_trailing_minus ds :
  Forall is_digit ds -> ds <> [] ->
  int_of_str (map digit_char ds ++ ["-"%char])
  = Raise (InvalidLiteral (map digit_char ds ++ ["-"%char])).
Proof.
  intros Hds Hne. unfold int_of_str, parse_int.
  assert (strip (map digit_char ds ++ ["-"%char]) = map digit_char ds ++ ["-"%char]) as ->.
  { unfold strip. destruct Hds as [|d ds Hd Hds]; [congruence |].
    cbn [map app lstrip]. destruct (digit_char_facts d Hd) as (_ & -> & _).
    change (digit_char d :: map digit_char ds ++ ["-"%char])
      with ((digit_char d :: map digit_char ds) ++ ["-"%char]).
    rewrite rev_app_distr. cbn [rev app lstrip].
    change (is_space "-") with false. cbn iota.
    cbn [rev]. rewrite rev_app_distr, rev_involutive. reflexivity. }
  destruct Hds as [|d ds Hd Hds]; [congruence |].
  cbn [map app]. destruct (digit_char_facts d Hd) as (_ & _ & -> & ->).
  change (digit_char d :: map digit_char ds ++ ["-"%char])
    with (map digit_char (d :: ds) ++ ["-"%char]).
  rewrite parse_digits_stops by (constructor; assumption). reflexivity.
Qed.

(** A negative [int] makes [reverse_number] fail inside [int]. *)
Lemma reverse_number_negative n :
  n < 0 -> reverse_number (PyInt n) = Raise (InvalidLiteral (rev (str (PyInt n)))).
Proof.
  intros Hn. destruct (digits_of_nonneg (- n)) as (Hds & Hne & _); [lia |].
  cbn zeta in *. unfold reverse_number, str, str_int, decimal_digits.
  destruct (Z.ltb_spec n 0); [|lia].
  set (ds := digits_lsb _ (- n)) in *.
  cbn [length]. rewrite length_map, length_rev.
  destruct ds as [|d ds]; [congruence |].
  cbn [length Nat.eqb]. cbn [rev]. rewrite <- map_rev.
  change (rev (d :: ds)) with (rev ds ++ [d]). rewrite rev_app_distr.
  cbn [rev app]. rewrite rev_involutive.
  apply int_of_str_trailing_minus; [exact Hds | discriminate].
Qed.

(** * Uniqueness of the decimal representation *)

Lemma value_msb_leading d ds :
  Forall is_digit (d :: ds) -> d <> 0 -> 1 <= value_msb (d :: ds).
Proof.
  intros Hall Hd. apply Forall_cons in Hall as [Hdig Hds].
  rewrite value_msb_cons. pose proof (value_msb_bound ds Hds) as [Hlo _].
  assert (0 < 10 ^ Z.of_nat (length ds)) by (apply Z.pow_pos_nonneg; lia).
  unfold is_digit in Hdig. nia.
Qed.

Lemma decimal_repr_lsb ds :
  Forall is_digit ds ->
  (exists d ds', ds = d :: ds' /\ (d <> 0 \/ ds' = [])) ->
  forall fuel, value_msb ds < 2 ^ Z.of_nat (S fuel) ->
  rev ds = digits_lsb (S fuel) (value_msb ds).
Proof.
  induction ds as [|d0 ds IH] using rev_ind; intros Hall Hlead fuel Hfuel.
  - destruct Hlead as (d & ds' & Heq & _). discriminate.
  - apply Forall_app in Hall as [Hds Hd0]. apply Forall_cons in Hd0 as [Hd0 _].
    rewrite rev_app_distr, value_msb_snoc, digits_lsb_S. cbn [rev app].
    rewrite value_msb_snoc in Hfuel.
    pose proof (value_msb_bound ds Hds) as [Hlo _]. unfold is_digit in Hd0.
    destruct ds as [|d ds].
    + unfold value_msb. cbn [fold_left].
      destruct (Z.ltb_spec (10 * 0 + d0) 10); [f_equal; lia | lia].
    + assert (d <> 0) as Hd.
      { destruct Hlead as (d' & ds' & Heq & [Hnz | Hnil]).
        - cbn [app] in Heq. injection Heq as <- _. exact Hnz.
        - cbn [app] in Heq. injection Heq as _ Heq. subst ds'.
          destruct ds; discriminate. }
      pose proof (value_msb_leading d ds Hds Hd) as Hone.
      set (v := value_msb (d :: ds)) in *.
      destruct (Z.ltb_spec (10 * v + d0) 10); [lia |].
      assert ((10 * v + d0) mod 10 = d0) as ->
        by (rewrite Z.add_comm, Z.mul_comm, Z_mod_plus_full; apply Z.mod_small; lia).
      assert ((10 * v + d0) / 10 = v) as ->
        by (rewrite Z.add_comm, Z.mul_comm, Z_div_plus_full by lia;
            rewrite Z.div_small by lia; lia).
      f_equal. destruct fuel as [|fuel].
      * change (2 ^ Z.of_nat 1) with 2 in Hfuel. lia.
      * apply IH; [exact Hds | eauto |].
        rewrite (Nat2Z.inj_succ (S fuel)), Z.pow_succ_r in Hfuel by lia.
        fold v. lia.
Qed.

(** A number has one decimal representation: the one [str] prints. *)
Lemma decimal_repr_unique ds n :
  decimal_repr ds n -> 0 <= n /\ ds = decimal_digits n.
Proof.
  intros (Hds & Hlead & <-). pose proof (value_msb_bound ds Hds) as [Hlo _].
  split; [exact Hlo |]. unfold decimal_digits.
  rewrite <- (decimal_repr_lsb ds Hds Hlead) by (apply fuel_covers; exact Hlo).
  symmetry. apply rev_involutive.
Qed.


(** * The properties of the specification *)

(** C1, as stated, does not hold: rotation invariance fails for a list in
    which the least value occurs twice.  [[1; 3; 1; 2]] is [[1; 2; 1; 3]]
    rotated by two places, and each of the two is its own canonical form. *)
Lemma canonical_rotation_counterexample :
  ~ (forall l k, l <> [] ->
       get_canonical_loop (rotation k l) = get_canonical_loop l).
Proof.
  intros H. specialize (H [1; 2; 1; 3] 2%nat ltac:(discriminate)).
  vm_compute in H. discriminate.
Qed.

(** C1, amended: for every non-empty loop list whose least value occurs
    once, the list and each of its cyclic rotations have the same canonical
    form; the loops [63, 27, 9], [27, 9, 63] and [9, 63, 27] all canonicalize
    to (9, 63, 27). *)
Theorem canonical_rotation_invariant :
  (forall l k, l <> [] -> least_once l ->
     get_canonical_loop (rotation k l) = get_canonical_loop l)
  /\ get_canonical_loop [63; 27; 9] = Ok [9; 63; 27]
  /\ get_canonical_loop [27; 9; 63] = Ok [9; 63; 27]
  /\ get_canonical_loop [9; 63; 27] = Ok [9; 63; 27].
Proof.
  split; [|repeat split; reflexivity].
  intros l k Hne Honce.
  destruct (get_canonical_loop_shape l Hne) as (a & m & b & Heq & Ha & Hle & ->).
  assert (m ∉ b) as Hb.
  { apply (count_occ_once_split a b m). rewrite <- Heq. apply Honce; [|exact Hle].
    rewrite Heq. apply elem_of_app. right; left. }
  rewrite Heq. apply get_canonical_loop_rotation_split; [exact Ha | exact Hb |].
  rewrite <- Heq. exact Hle.
Qed.

Lemma canonical_rotation_witness :
  get_canonical_loop (rotation 1 [63; 27; 9]) = get_canonical_loop [63; 27; 9].
Proof.
  apply (proj1 canonical_rotation_invariant); [discriminate |].
  apply least_once_NoDup. apply (bool_decide_unpack _). vm_compute. reflexivity.
Defined.

(** C2: for every non-negative integer [n], one pass of the loop body
    computes the next value as 0 when [n] equals its digit reversal [r], and
    as the absolute difference |n - r| otherwise. *)
Theorem reverse_subtract_step n st :
  0 <= n ->
  exists r st',
    reverse_number (PyInt n) = Ok r
    /\ loop_body st (PyInt n) n = Ok st'
    /\ (n = r -> current_number st' = 0)
    /\ (n <> r -> current_number st' = Z.abs (n - r)).
Proof.
  intros Hn. exists (value_msb (reversed_digits n)).
  pose proof (reverse_number_digits n Hn) as Hr.
  set (r := value_msb (reversed_digits n)) in *.
  eexists. split; [exact Hr |]. unfold loop_body. rewrite Hr.
  cbn [mbind outcome_bind]. split; [reflexivity |].
  cbn [current_number]. unfold next_number.
  destruct (Z.eqb_spec n r); [split; [reflexivity | congruence] |].
  split; [congruence |]. intros _. destruct (Z.gtb_spec n r); lia.
Qed.

Lemma reverse_subtract_step_witness :
  exists r st',
    reverse_number (PyInt 9) = Ok r
    /\ loop_body (initial_state 9) (PyInt 9) 9 = Ok st'
    /\ (9 = r -> current_number st' = 0)
    /\ (9 <> r -> current_number st' = Z.abs (9 - r)).
Proof. apply (reverse_subtract_step 9 (initial_state 9)). lia. Defined.

(** C3: digit reversal follows the single-digit convention: a digit [d] in
    1..9 reverses to [d * 10], 0 reverses to 0, and a number with two or more
    decimal digits reverses to the number its digit string denotes when read
    backwards, leading zeros of the reversed string having no weight (100
    reverses to 1). *)
Theorem reverse_number_convention :
  (forall d, 1 <= d <= 9 -> reverse_number (PyInt d) = Ok (d * 10))
  /\ reverse_number (PyInt 0) = Ok 0
  /\ (forall n ds, decimal_repr ds n -> (2 <= length ds)%nat ->
        reverse_number (PyInt n) = Ok (value_msb (rev ds)))
  /\ reverse_number (PyInt 100) = Ok 1.
Proof.
  split_and!; [| reflexivity | | reflexivity].
  - intros d Hd. rewrite reverse_number_small by lia. f_equal. lia.
  - intros n ds Hrepr Hlen. destruct (decimal_repr_unique ds n Hrepr) as [Hn ->].
    rewrite reverse_number_digits by exact Hn. f_equal. f_equal.
    unfold reversed_digits, decimal_digits in *. cbn zeta.
    rewrite length_rev in Hlen. rewrite rev_involutive.
    destruct (Nat.eqb_spec (length (digits_lsb (S (Z.to_nat (Z.log2 n))) n)) 1);
      [lia | reflexivity].
Qed.

Lemma reverse_number_convention_witness :
  reverse_number (PyInt 5) = Ok (5 * 10)
  /\ reverse_number (PyInt 120) = Ok (value_msb (rev [1; 2; 0])).
Proof.
  split.
  - apply (proj1 reverse_number_convention). lia.
  - apply (proj1 (proj2 (proj2 reverse_number_convention))).
    + split_and!; [repeat constructor; unfold is_digit; lia | | reflexivity].
      exists 1, [2; 0]. split; [reflexivity | left; lia].
    + simpl. lia.
Defined.

(** C4: for every non-negative integer [n], cycle detection terminates: with
    any fuel above a bound it returns one and the same non-empty tuple, whose
    first element is the least element of the tuple. *)
Theorem detect_loop_terminates n :
  0 <= n ->
  exists fuel0 m rest,
    (forall fuel, (fuel0 <= fuel)%nat ->
       find_ending_loop_for_number fuel (PyInt n) = Ok (m :: rest))
    /\ Forall (fun y => m <= y) rest.
Proof.
  intros Hn. destruct (find_ending_total n Hn) as (fuel0 & t & Ht).
  destruct (find_ending_partial fuel0 n t Hn (Ht fuel0 (Nat.le_refl _)))
    as (m & rest & -> & Hle & _).
  exists fuel0, m, rest. split; [exact Ht | exact Hle].
Qed.

Lemma detect_loop_terminates_witness :
  exists fuel0 m rest,
    (forall fuel, (fuel0 <= fuel)%nat ->
       find_ending_loop_for_number fuel (PyInt 9) = Ok (m :: rest))
    /\ Forall (fun y => m <= y) rest.
Proof. apply (detect_loop_terminates 9). lia. Defined.

Lemma for_loop_negative_start fuel s rest acc :
  s < 0 -> for_loop fuel (s :: rest) acc = Raise (ValueError guard_message).
Proof.
  intros Hs. cbn [for_loop]. unfold find_ending_loop_for_number, lt_zero.
  cbn [int_value isinstance_int negb orb].
  destruct (Z.ltb_spec s 0); [reflexivity | lia].
Qed.

(** C5, as stated, does not hold: given the range 5..1 the analysis function
    raises nothing; it finishes with the summary for an empty table. *)
Lemma analyze_reversed_range_counterexample :
  analyze_number_range 1 5 1
  = Ok (Analysis [] None [summary_head; summary_empty])
  /\ ~ (exists fuel e, analyze_number_range fuel 5 1 = Raise e).
Proof.
  split; [reflexivity |]. intros (fuel & e & H). vm_compute in H. discriminate.
Qed.

(** C5, amended: the analysis function does not validate its range.  With
    the end below the start (for example 5 and 1) it raises no error,
    processes no number and yields an empty frequency table, no sorted list
    and the summary "No numbers were processed or no loops found."; with a
    negative start not above the end it fails with the cycle detector's
    [ValueError] at the first value.  The checks that both bounds are
    non-negative and that the end is not below the start are made by the
    interactive caller, which rejects such a range with a message and does
    not run the analysis, and runs it on every other range. *)
Theorem analyze_range_validation fuel start_range end_range :
  (end_range < start_range ->
     analyze_number_range fuel start_range end_range
     = Ok (Analysis [] None [summary_head; summary_empty]))
  /\ (start_range <= end_range -> start_range < 0 ->
        analyze_number_range fuel start_range end_range
        = Raise (ValueError guard_message))
  /\ (start_range < 0 \/ end_range < 0 \/ end_range < start_range ->
        exists message, main_mode2 fuel start_range end_range = Rejected message)
  /\ (0 <= start_range <= end_range ->
        main_mode2 fuel start_range end_range
        = Analysed (analyze_number_range fuel start_range end_range)).
Proof.
  split_and!.
  - intros Hlt. unfold analyze_number_range, py_range.
    rewrite seqZ_nil by lia. reflexivity.
  - intros Hle Hneg. unfold analyze_number_range, py_range.
    rewrite seqZ_cons by lia. rewrite for_loop_negative_start by exact Hneg.
    reflexivity.
  - intros Hbad. unfold main_mode2.
    destruct (Z.ltb_spec start_range 0); [eexists; reflexivity |].
    destruct (Z.ltb_spec end_range 0); [eexists; reflexivity |].
    destruct (Z.ltb_spec end_range start_range); [eexists; reflexivity | lia].
  - intros Hok. unfold main_mode2.
    destruct (Z.ltb_spec start_range 0); [lia |].
    destruct (Z.ltb_spec end_range 0); [lia |].
    destruct (Z.ltb_spec end_range start_range); [lia | reflexivity].
Qed.

Lemma analyze_range_validation_witness :
  analyze_number_range 0 5 1 = Ok (Analysis [] None [summary_head; summary_empty])
  /\ analyze_number_range 0 (-3) 2 = Raise (ValueError guard_message)
  /\ (exists message, main_mode2 0 5 1 = Rejected message)
  /\ main_mode2 0 1 5 = Analysed (analyze_number_range 0 1 5).
Proof.
  split_and!.
  - apply (proj1 (analyze_range_validation 0 5 1)). lia.
  - apply (proj1 (proj2 (analyze_range_validation 0 (-3) 2))); lia.
  - apply (proj1 (proj2 (proj2 (analyze_range_validation 0 5 1)))). lia.
  - apply (proj2 (proj2 (proj2 (analyze_range_validation 0 1 5)))). lia.
Defined.

(** C6: cycle detection started from 0 yields the canonical loop (0,),
    because the reversal of 0 is 0 and the value after 0 is 0. *)
Theorem detect_loop_zero fuel :
  (2 <= fuel)%nat ->
  find_ending_loop_for_number fuel (PyInt 0) = Ok [0]
  /\ reverse_number (PyInt 0) = Ok 0
  /\ next_number 0 0 = 0.
Proof.
  intros Hfuel. split; [|split; reflexivity].
  destruct fuel as [|[|fuel]]; [lia | lia |].
  rewrite find_ending_int by lia. rewrite while_loop_S.
  unfold initial_state, loop_body. cbn [seen_numbers current_number sequence].
  rewrite lookup_empty.
  change (reverse_number (PyInt 0)) with (Ok 0 : outcome Z).
  cbn [mbind outcome_bind]. change (next_number 0 0) with 0.
  rewrite while_loop_S. cbn [seen_numbers current_number].
  rewrite lookup_insert_eq. cbn [mbind outcome_bind].
  unfold loop_of_state. cbn [seen_numbers current_number sequence].
  rewrite lookup_insert_eq. reflexivity.
Qed.

Lemma detect_loop_zero_witness :
  find_ending_loop_for_number 2 (PyInt 0) = Ok [0]
  /\ reverse_number (PyInt 0) = Ok 0
  /\ next_number 0 0 = 0.
Proof. apply (detect_loop_zero 2). lia. Defined.

(** C7: every starting value of a valid range adds one to exactly one count,
    so the analysis finishes with a frequency table whose counts sum to the
    size of the range; for the range 1 through 100 they sum to 100. *)
Theorem range_counts_sum start_range end_range :
  0 <= start_range -> start_range <= end_range ->
  exists fuel0 r,
    (forall fuel, (fuel0 <= fuel)%nat ->
       analyze_number_range fuel start_range end_range = Ok r)
    /\ total_count (loop_frequencies r) = end_range - start_range + 1.
Proof.
  intros Hs Hle.
  destruct (py_range_facts start_range (end_range + 1)) as [Hlen Hall].
  destruct (for_loop_total (py_range start_range (end_range + 1))) as [fuel0 Hrun].
  { eapply Forall_impl; [exact Hall |]. intros i Hi. cbn beta in Hi. lia. }
  destruct (Hrun []) as [freqs Hfreqs].
  destruct (for_loop_result _ _ _ _ (Hfreqs fuel0 (Nat.le_refl _))) as (Hsum & _ & Hne).
  assert (total_count freqs = end_range - start_range + 1) as Htotal.
  { rewrite Hsum, Hlen. unfold total_count. cbn [foldr]. lia. }
  destruct freqs as [|item freqs].
  - exfalso. apply Hne; [|reflexivity].
    intros Hnil. rewrite Hnil in Hlen. simpl in Hlen. lia.
  - exists fuel0. eexists.
    split;
      [intros fuel Hfuel; unfold analyze_number_range;
       rewrite (Hfreqs fuel Hfuel); reflexivity
      | exact Htotal].
Qed.

Lemma range_counts_sum_witness :
  exists fuel0 r,
    (forall fuel, (fuel0 <= fuel)%nat -> analyze_number_range fuel 1 100 = Ok r)
    /\ total_count (loop_frequencies r) = 100 - 1 + 1.
Proof. apply (range_counts_sum 1 100); lia. Defined.

Lemma key_lt_order a b :
  key_lt b a = true
  <-> snd b < snd a \/ (snd a = snd b /\ lex_lt (fst b) (fst a)).
Proof.
  unfold key_lt. rewrite <- tuple_lt_spec.
  destruct (Z.eqb_spec (snd b) (snd a)) as [Heq | Hne].
  - split; [intros Hlt; right; split; [congruence | exact Hlt] |].
    intros [Hlt | [_ Hlt]]; [lia | exact Hlt].
  - rewrite Z.ltb_lt. split; [intros Hlt; left; exact Hlt |].
    intros [Hlt | [Heq _]]; [exact Hlt | congruence].
Qed.

(** C8: the entries of the rendered summary are the entries of the frequency
    table ordered by count descending and, among equal counts, by loop tuple
    descending in the lexicographic order of tuples: of two entries, one is
    listed before the other exactly when it has the greater count, or the
    same count and the greater tuple. *)
Theorem summary_order fuel start_range end_range r sorted :
  analyze_number_range fuel start_range end_range = Ok r ->
  sorted_loops r = Some sorted ->
  sorted ≡ₚ loop_frequencies r
  /\ (exists header,
        length header = 5%nat
        /\ summary_lines r = header ++ map entry_line sorted ++ [summary_end])
  /\ (forall i j a b,
        sorted !! i = Some a -> sorted !! j = Some b ->
        (i < j)%nat
        <-> snd b < snd a \/ (snd a = snd b /\ lex_lt (fst b) (fst a))).
Proof.
  unfold analyze_number_range. intros Hrun Hsorted.
  destruct (for_loop fuel _ []) as [freqs | e |] eqn:Hfreqs;
    cbn [mbind outcome_bind] in Hrun; try discriminate.
  destruct (for_loop_result _ _ _ _ Hfreqs) as (_ & Hnd & _).
  specialize (Hnd (NoDup_nil_2 : NoDup (map fst ([] : freq_table)))).
  destruct freqs as [|item freqs]; injection Hrun as <-;
    cbn [sorted_loops loop_frequencies summary_lines] in *; [discriminate |].
  injection Hsorted as <-.
  set (table := item :: freqs) in *.
  split_and!.
  - apply sorted_reverse_spec.
  - eexists [_; _; _; _; _]. split; reflexivity.
  - intros i j a b Hi Hj. rewrite <- key_lt_order. split.
    + intros Hij. exact (sorted_reverse_strict table i j a b Hnd Hij Hi Hj).
    + intros Hba. destruct (Nat.lt_trichotomy i j) as [Hij | [-> | Hji]].
      * exact Hij.
      * rewrite Hi in Hj. injection Hj as ->.
        rewrite key_lt_irrefl in Hba. discriminate.
      * pose proof (sorted_reverse_strict table j i b a Hnd Hji Hj Hi) as Hab.
        rewrite (key_lt_asym _ _ Hab) in Hba. discriminate.
Qed.

Lemma summary_order_witness :
  exists r sorted,
    analyze_number_range 100 1 100 = Ok r
    /\ sorted_loops r = Some sorted
    /\ sorted = [([9; 81; 63; 27; 45], 90); ([0], 10)]
    /\ sorted ≡ₚ loop_frequencies r
    /\ (exists header,
          length header = 5%nat
          /\ summary_lines r = header ++ map entry_line sorted ++ [summary_end])
    /\ (forall i j a b,
          sorted !! i = Some a -> sorted !! j = Some b ->
          (i < j)%nat
          <-> snd b < snd a \/ (snd a = snd b /\ lex_lt (fst b) (fst a))).
Proof.
  eexists. eexists.
  split; [vm_compute; reflexivity |].
  split; [reflexivity |].
  split; [reflexivity |].
  apply (summary_order 100 1 100); [vm_compute; reflexivity | reflexivity].
Defined.

(** C9, as stated, does not hold for digit reversal, which checks nothing:
    given the text "12", which is no integer, it returns 21. *)
Lemma reverse_number_text_counterexample :
  isinstance_int (PyStr (lit "12")) = false
  /\ reverse_number (PyStr (lit "12")) = Ok 21.
Proof. split; reflexivity. Qed.

(** C9, amended: a value that is not an instance of [int], or a negative
    integer, supplied as the cycle detector's starting value raises the
    [ValueError] "Input must be a non-negative integer." before any pass of
    the main loop (whatever the fuel, none included).  Digit reversal has no
    check of its own; a negative integer fails there with the [ValueError]
    that [int] raises on the reversed text. *)
Theorem invalid_input_rejected fuel v :
  isinstance_int v = false \/ (exists n, int_value v = Some n /\ n < 0) ->
  find_ending_loop_for_number fuel v = Raise (ValueError guard_message)
  /\ (forall n, v = PyInt n ->
        reverse_number v = Raise (InvalidLiteral (rev (str v)))).
Proof.
  intros Hbad. split.
  - unfold find_ending_loop_for_number, lt_zero.
    destruct Hbad as [-> | (n & -> & Hneg)]; [reflexivity |].
    destruct (Z.ltb_spec n 0); [|lia]. rewrite orb_true_r. reflexivity.
  - intros n ->. apply reverse_number_negative.
    destruct Hbad as [Hinst | (n' & [= <-] & Hneg)]; [discriminate | exact Hneg].
Qed.

Lemma invalid_input_rejected_witness :
  (find_ending_loop_for_number 0 (PyInt (-5)) = Raise (ValueError guard_message)
   /\ (forall n, PyInt (-5) = PyInt n ->
         reverse_number (PyInt (-5)) = Raise (InvalidLiteral (rev (str (PyInt (-5)))))))
  /\ find_ending_loop_for_number 0 (PyStr (lit "12")) = Raise (ValueError guard_message).
Proof.
  split.
  - apply (invalid_input_rejected 0 (PyInt (-5))). right. exists (-5).
    split; [reflexivity | lia].
  - apply (invalid_input_rejected 0 (PyStr (lit "12"))). left. reflexivity.
Defined.

(** C10: for a non-negative current value the digit reversal and the next
    value are non-negative integers, so every element of the visited
    sequence, and every element of a returned canonical loop, is
    non-negative. *)
Theorem values_nonnegative fuel n x :
  0 <= n -> 0 <= x ->
  (exists r, reverse_number (PyInt x) = Ok r /\ 0 <= r /\ 0 <= next_number x r)
  /\ (forall st, while_loop fuel (initial_state n) = Ok st ->
        Forall (fun y => 0 <= y) (sequence st) /\ 0 <= current_number st)
  /\ (forall t, find_ending_loop_for_number fuel (PyInt n) = Ok t ->
        Forall (fun y => 0 <= y) t).
Proof.
  intros Hn Hx. split_and!.
  - destruct (below_step (Z.max 2 (x + 1)) ltac:(lia) x (below_pow x Hx))
      as (r & Hr & Hnext).
    destruct (reverse_number_bound x (Z.max 2 (x + 1)) (below_pow x Hx) ltac:(lia))
      as (r' & Hr' & Hrb).
    exists r. rewrite Hr in Hr'. injection Hr' as <-.
    split_and!; [exact Hr | apply Hrb | apply Hnext].
  - intros st Hst.
    pose proof (while_loop_inv _ (below_step (Z.max 2 (n + 1)) ltac:(lia)) fuel _
                  (loop_inv_initial _ n (below_pow n Hn))) as Hw.
    rewrite Hst in Hw. destruct Hw as ((_ & _ & Hall & Hcur) & _).
    split; [|apply Hcur].
    eapply Forall_impl; [exact Hall |]. intros y Hy. apply Hy.
  - intros t Ht.
    destruct (find_ending_partial fuel n t Hn Ht) as (_ & _ & _ & _ & Hall & _).
    exact Hall.
Qed.

Lemma values_nonnegative_witness :
  Forall (fun y => 0 <= y) [9; 81; 63; 27; 45].
Proof.
  refine (proj2 (proj2 (values_nonnegative 100 9 9 _ _)) _ _);
    [lia | lia | vm_compute; reflexivity].
Defined.

(** * Further properties of the code *)

(** ** [get_canonical_loop] *)

(** What the amended C1 rests on, as a lemma of its own. *)
Lemma get_canonical_loop_rotation l k :
  l <> [] -> least_once l ->
  get_canonical_loop (rotation k l) = get_canonical_loop l.
Proof.
  intros Hne Honce.
  destruct (get_canonical_loop_shape l Hne) as (a & m & b & Heq & Ha & Hle & ->).
  destruct (count_occ_once_split a b m) as [_ Hb].
  { rewrite <- Heq. apply Honce; [|exact Hle].
    rewrite Heq. apply elem_of_app. right; left. }
  rewrite Heq. apply get_canonical_loop_rotation_split; [exact Ha | exact Hb |].
  rewrite <- Heq. exact Hle.
Qed.

Lemma canonical_perm l t :
  get_canonical_loop l = Ok t -> t ≡ₚ l.
Proof.
  destruct l as [|x l']; [intros [= <-]; reflexivity |].
  destruct (get_canonical_loop_shape (x :: l') ltac:(discriminate))
    as (a & m & b & Heq & _ & _ & ->).
  intros [= <-]. rewrite Heq. rewrite (Permutation_app_comm a). reflexivity.
Qed.

(** X1: [get_canonical_loop] never fails: on every list it returns a
    rotation of its argument, hence the same values the same number of
    times, and the first element of a non-empty result is a least element. *)
Theorem get_canonical_loop_is_rotation l :
  exists k,
    (k <= length l)%nat
    /\ get_canonical_loop l = Ok (rotation k l)
    /\ rotation k l ≡ₚ l
    /\ (forall m rest, rotation k l = m :: rest -> Forall (fun y => m <= y) rest).
Proof.
  destruct l as [|x l'].
  - exists O. split_and!; [reflexivity | reflexivity | reflexivity |].
    intros m rest Heq. discriminate.
  - destruct (get_canonical_loop_shape (x :: l') ltac:(discriminate))
      as (a & m & b & Heq & Ha & Hle & Hcan).
    exists (length a). rewrite Hcan, Heq.
    assert (rotation (length a) (a ++ m :: b) = m :: b ++ a) as Hrot
      by (unfold rotation; rewrite drop_app_length, take_app_length; reflexivity).
    rewrite Hrot. split_and!.
    + rewrite length_app. lia.
    + reflexivity.
    + rewrite <- Hrot. apply rotation_perm.
    + intros m' rest [= <- <-]. rewrite Heq in Hle.
      apply Forall_app in Hle as [Hla Hlb]. apply Forall_cons in Hlb as [_ Hlb].
      apply Forall_app. split; assumption.
Qed.

(** X2: the canonical form is a fixed point: canonicalizing a canonical
    tuple returns it unchanged. *)
Theorem get_canonical_loop_idempotent l t :
  get_canonical_loop l = Ok t -> get_canonical_loop t = Ok t.
Proof.
  destruct l as [|x l']; [intros [= <-]; reflexivity |].
  destruct (get_canonical_loop_shape (x :: l') ltac:(discriminate))
    as (a & m & b & Heq & Ha & Hle & ->).
  intros [= <-].
  pose proof (get_canonical_loop_split [] m (b ++ a)) as Hfix.
  cbn [app] in Hfix. rewrite app_nil_r in Hfix. apply Hfix.
  - apply not_elem_of_nil.
  - rewrite Heq in Hle. apply Forall_app in Hle as [Hla Hlb].
    apply Forall_cons in Hlb as [Hm Hlb].
    constructor; [exact Hm |]. apply Forall_app. split; assumption.
Qed.

Lemma get_canonical_loop_idempotent_witness :
  get_canonical_loop [9; 63; 27] = Ok [9; 63; 27].
Proof. apply (get_canonical_loop_idempotent [63; 27; 9]). reflexivity. Defined.

(** ** The values a run visits *)

Lemma find_ending_shape P fuel n :
  (forall x, P x -> exists r, reverse_number (PyInt x) = Ok r /\ P (next_number x r)) ->
  0 <= n -> P n ->
  match find_ending_loop_for_number fuel (PyInt n) with
  | Ok t => Forall P t /\ NoDup t
  | Raise _ => False
  | OutOfFuel => True
  end.
Proof.
  intros Hstep Hn HP. rewrite find_ending_int by exact Hn.
  pose proof (while_loop_inv P Hstep fuel _ (loop_inv_initial P n HP)) as Hw.
  destruct (while_loop fuel (initial_state n)) as [st | e |];
    cbn [mbind outcome_bind]; [| exact Hw | exact I].
  destruct Hw as (Hinv & Hseen & _).
  destruct (loop_of_state_shape P st Hinv Hseen) as (m & rest & -> & _ & Hall & Hnd).
  split; assumption.
Qed.

(** X3: reversal and subtraction do not add digits: for [k >= 2], a value
    below [10 ^ k] has its reversal and its successor below [10 ^ k]. *)
Theorem step_stays_below k x :
  2 <= k -> 0 <= x < 10 ^ k ->
  exists r,
    reverse_number (PyInt x) = Ok r
    /\ 0 <= r < 10 ^ k
    /\ 0 <= next_number x r < 10 ^ k.
Proof.
  intros Hk Hx. destruct (reverse_number_bound x k Hx Hk) as (r & Hr & Hrb).
  destruct (below_step k Hk x Hx) as (r' & Hr' & Hnext).
  rewrite Hr in Hr'. injection Hr' as <-.
  exists r. split_and!; [exact Hr | apply Hrb | apply Hrb | apply Hnext | apply Hnext].
Qed.

Lemma step_stays_below_witness :
  exists r,
    reverse_number (PyInt 120) = Ok r
    /\ 0 <= r < 10 ^ 3
    /\ 0 <= next_number 120 r < 10 ^ 3.
Proof. apply (step_stays_below 3 120); lia. Defined.

(** X4: a run never leaves the range of its start: started below [10 ^ k]
    with [k >= 2], every value of the returned loop is below [10 ^ k], and
    the loop has at most [10 ^ k] elements. *)
Theorem loop_stays_below fuel k n t :
  2 <= k -> 0 <= n < 10 ^ k ->
  find_ending_loop_for_number fuel (PyInt n) = Ok t ->
  Forall (fun y => 0 <= y < 10 ^ k) t /\ (length t <= Z.to_nat (10 ^ k))%nat.
Proof.
  intros Hk Hn Hrun.
  pose proof (find_ending_shape (below (10 ^ k)) fuel n (below_step k Hk)
                (proj1 Hn) Hn) as Hs.
  rewrite Hrun in Hs. destruct Hs as [Hall Hnd].
  split; [exact Hall |]. apply distinct_in_range_length; assumption.
Qed.

Lemma loop_stays_below_witness :
  Forall (fun y => 0 <= y < 10 ^ 5) [2178; 6534]
  /\ (length [2178; 6534]%Z <= Z.to_nat (10 ^ 5))%nat.
Proof.
  apply (loop_stays_below 100 5 12345); [lia | lia | vm_compute; reflexivity].
Defined.



(** X6: no value occurs twice in a returned loop. *)
Theorem loop_values_distinct fuel n t :
  0 <= n -> find_ending_loop_for_number fuel (PyInt n) = Ok t -> NoDup t.
Proof.
  intros Hn Hrun.
  pose proof (find_ending_shape (below (10 ^ Z.max 2 (n + 1))) fuel n
                (below_step (Z.max 2 (n + 1)) ltac:(lia)) Hn (below_pow n Hn)) as Hs.
  rewrite Hrun in Hs. apply Hs.
Qed.

Lemma loop_values_distinct_witness : NoDup [9; 81; 63; 27; 45].
Proof.
  apply (loop_values_distinct 100 9); [lia | vm_compute; reflexivity].
Defined.

(** ** The returned loop is a cycle of the step *)

Lemma chain_tail x l : chain (x :: l) -> chain l.
Proof. inversion 1; subst; [constructor | assumption]. Qed.

Lemma chain_app_r l1 l2 : chain (l1 ++ l2) -> chain l2.
Proof.
  induction l1 as [|x l1 IH]; cbn [app]; [auto |].
  intros Hc. apply IH. eapply chain_tail, Hc.
Qed.

Lemma chain_app_l l1 l2 : chain (l1 ++ l2) -> chain l1.
Proof.
  induction l1 as [|x l1 IH]; cbn [app]; intros Hc; [constructor |].
  destruct l1 as [|y l1]; [constructor |].
  cbn [app] in *. inversion Hc; subst. constructor; [assumption |].
  apply IH. assumption.
Qed.

Lemma chain_join l1 x l2 :
  chain (l1 ++ [x]) -> chain (x :: l2) -> chain (l1 ++ x :: l2).
Proof.
  induction l1 as [|a l1 IH]; cbn [app]; intros H1 H2; [exact H2 |].
  destruct l1 as [|b l1]; cbn [app] in *.
  - inversion H1; subst. constructor; assumption.
  - inversion H1; subst. constructor; [assumption |]. apply IH; assumption.
Qed.

Lemma chain_snoc l x y :
  chain (l ++ [x]) -> step_value x = Ok y -> chain ((l ++ [x]) ++ [y]).
Proof.
  intros Hc Hstep. rewrite <- app_assoc. cbn [app].
  apply chain_join; [exact Hc |]. constructor; [exact Hstep | constructor].
Qed.

Lemma chain_drop i l : chain l -> chain (drop i l).
Proof. intros Hc. rewrite <- (take_drop i l) in Hc. eapply chain_app_r, Hc. Qed.

Lemma chain_rotate a m b :
  chain ((a ++ m :: b) ++ take 1 (a ++ m :: b)) -> chain ((m :: b ++ a) ++ [m]).
Proof.
  destruct a as [|a0 a]; cbn [app take].
  - rewrite app_nil_r. auto.
  - intros Hc.
    assert (chain ((m :: b) ++ [a0])) as Hright.
    { apply (chain_app_r (a0 :: a)). cbn [app]. rewrite <- app_assoc in Hc. exact Hc. }
    assert (chain (a0 :: a ++ [m])) as Hleft.
    { apply (chain_app_l _ (b ++ [a0])). cbn [app].
      rewrite <- !app_assoc in *. cbn [app] in *. exact Hc. }
    change (m :: (b ++ a0 :: a) ++ [m]) with ((m :: b ++ a0 :: a) ++ [m]).
    replace ((m :: b ++ a0 :: a) ++ [m]) with ((m :: b) ++ a0 :: (a ++ [m]))
      by (cbn [app]; rewrite <- !app_assoc; reflexivity).
    apply chain_join; assumption.
Qed.

Lemma chain_lookup l i x y :
  chain l -> l !! i = Some x -> l !! S i = Some y -> step_value x = Ok y.
Proof.
  intros Hc. revert i. induction Hc as [| a | a b l Hab Hc IH]; intros i Hx Hy.
  - rewrite lookup_nil in Hx. discriminate.
  - destruct i; cbn in Hy; discriminate.
  - destruct i as [|i]; cbn in Hx, Hy.
    + congruence.
    + eapply IH; eassumption.
Qed.

Lemma loop_body_step st c st' :
  loop_body st (PyInt c) c = Ok st' ->
  step_value c = Ok (current_number st')
  /\ sequence st' = sequence st ++ [c]
  /\ seen_numbers st' = <[c := length (sequence st)]> (seen_numbers st).
Proof.
  unfold loop_body, step_value.
  destruct (reverse_number (PyInt c)) as [r | e |]; cbn [mbind outcome_bind];
    try discriminate.
  intros [= <-]. split_and!; reflexivity.
Qed.

(** The visited values followed by the current one form a chain that only
    grows at its end. *)
Lemma while_loop_chain fuel st st' :
  while_loop fuel st = Ok st' ->
  chain (sequence st ++ [current_number st]) ->
  chain (sequence st' ++ [current_number st'])
  /\ exists more,
       sequence st' ++ [current_number st']
       = (sequence st ++ [current_number st]) ++ more.
Proof.
  revert st. induction fuel as [|fuel IH]; intros st Hrun Hc; [discriminate |].
  rewrite while_loop_S in Hrun.
  destruct (seen_numbers st !! current_number st).
  - injection Hrun as <-. split; [exact Hc |]. exists []. rewrite app_nil_r. reflexivity.
  - destruct (loop_body st _ _) as [st1 | e |] eqn:Hbody;
      cbn [mbind outcome_bind] in Hrun; try discriminate.
    destruct (loop_body_step _ _ _ Hbody) as (Hstep & Hseq & _).
    destruct (IH st1 Hrun) as (Hc' & more & Hmore).
    { rewrite Hseq. apply chain_snoc; assumption. }
    split; [exact Hc' |]. exists (current_number st1 :: more).
    rewrite Hmore, Hseq, <- !app_assoc. reflexivity.
Qed.

(** What a finished run from [n >= 0] leaves: an invariant state whose
    values are a chain from [n], cut at the first occurrence of the current
    value. *)
Lemma finished_run fuel n t :
  0 <= n -> find_ending_loop_for_number fuel (PyInt n) = Ok t ->
  exists st i more,
    while_loop fuel (initial_state n) = Ok st
    /\ loop_inv (below (10 ^ Z.max 2 (n + 1))) st
    /\ sequence st !! i = Some (current_number st)
    /\ get_canonical_loop (drop i (sequence st)) = Ok t
    /\ chain (sequence st ++ [current_number st])
    /\ sequence st ++ [current_number st] = n :: more.
Proof.
  intros Hn. rewrite find_ending_int by exact Hn. intros Hrun.
  pose proof (while_loop_inv _ (below_step (Z.max 2 (n + 1)) ltac:(lia)) fuel _
                (loop_inv_initial _ n (below_pow n Hn))) as Hw.
  destruct (while_loop fuel (initial_state n)) as [st | e |] eqn:Hloop;
    cbn [mbind outcome_bind] in Hrun; try discriminate.
  destruct Hw as (Hinv & [i Hseen] & _).
  destruct (while_loop_chain _ _ _ Hloop) as (Hc & more & Hmore);
    [cbn; constructor |].
  unfold loop_of_state in Hrun. rewrite Hseen in Hrun.
  exists st, i, more. split_and!; try assumption; [reflexivity |].
  destruct Hinv as (_ & Hmap & _). apply Hmap. exact Hseen.
Qed.

Lemma returned_loop_cycle_helper fuel n t :
  0 <= n -> find_ending_loop_for_number fuel (PyInt n) = Ok t ->
  chain (t ++ take 1 t).
Proof.
  intros Hn Hrun.
  destruct (finished_run fuel n t Hn Hrun) as (st & i & _ & _ & _ & Hi & Hcan & Hc & _).
  pose proof (lookup_lt_Some _ _ _ Hi) as Hlt.
  pose proof (drop_S _ _ _ Hi) as Hraw.
  apply (chain_drop i) in Hc. rewrite drop_app_le in Hc by lia.
  assert (drop i (sequence st) <> []) as Hne by (rewrite Hraw; discriminate).
  destruct (get_canonical_loop_shape _ Hne) as (a & m & b & Heq & _ & _ & Hcan').
  rewrite Hcan in Hcan'. injection Hcan' as ->.
  cbn [app take]. apply chain_rotate. rewrite <- Heq, Hraw. cbn [take app].
  rewrite Hraw in Hc. exact Hc.
Qed.

(** X7: the returned tuple is a cycle of the reverse-subtract step: each of
    its elements is followed by its successor, and the successor of the last
    element is the first. *)
Theorem returned_loop_is_cycle fuel n t :
  0 <= n -> find_ending_loop_for_number fuel (PyInt n) = Ok t ->
  chain (t ++ take 1 t)
  /\ (forall i x y,
        (t ++ take 1 t) !! i = Some x -> (t ++ take 1 t) !! S i = Some y ->
        step_value x = Ok y).
Proof.
  intros Hn Hrun. pose proof (returned_loop_cycle_helper fuel n t Hn Hrun) as Hc.
  split; [exact Hc |]. intros i x y. apply chain_lookup. exact Hc.
Qed.

Lemma returned_loop_is_cycle_witness :
  chain ([9; 81; 63; 27; 45] ++ take 1 [9; 81; 63; 27; 45])
  /\ (forall i x y,
        ([9; 81; 63; 27; 45] ++ take 1 [9; 81; 63; 27; 45]) !! i = Some x ->
        ([9; 81; 63; 27; 45] ++ take 1 [9; 81; 63; 27; 45]) !! S i = Some y ->
        step_value x = Ok y).
Proof.
  apply (returned_loop_is_cycle 100 9); [lia | vm_compute; reflexivity].
Defined.

(** ** A value and its successor end in the same loop *)

Lemma find_ending_fuel_mono fuel fuel' n t :
  0 <= n -> find_ending_loop_for_number fuel (PyInt n) = Ok t ->
  (fuel <= fuel')%nat -> find_ending_loop_for_number fuel' (PyInt n) = Ok t.
Proof.
  intros Hn. rewrite !find_ending_int by exact Hn. intros Hrun Hle.
  destruct (while_loop fuel (initial_state n)) as [st | e |] eqn:Hloop;
    cbn [mbind outcome_bind] in Hrun; try discriminate.
  rewrite (while_loop_fuel_mono _ fuel' _ _ Hloop Hle). exact Hrun.
Qed.

Lemma ends_in_functional n t t' :
  0 <= n -> ends_in n t -> ends_in n t' -> t = t'.
Proof.
  intros Hn [f Hf] [f' Hf'].
  pose proof (find_ending_fuel_mono f (Nat.max f f') n t Hn Hf ltac:(lia)) as H1.
  pose proof (find_ending_fuel_mono f' (Nat.max f f') n t' Hn Hf' ltac:(lia)) as H2.
  congruence.
Qed.

Lemma step_value_below k x y :
  2 <= k -> below (10 ^ k) x -> step_value x = Ok y -> below (10 ^ k) y.
Proof.
  intros Hk Hx. destruct (below_step k Hk x Hx) as (r & Hr & Hnext).
  unfold step_value. rewrite Hr. cbn [mbind outcome_bind]. intros [= <-]. exact Hnext.
Qed.

Lemma lookup_none_fresh P st x :
  loop_inv P st -> x ∉ sequence st -> seen_numbers st !! x = None.
Proof.
  intros (_ & Hmap & _) Hnot.
  destruct (seen_numbers st !! x) as [j|] eqn:Hj; [|reflexivity].
  exfalso. apply Hnot. apply Hmap in Hj. eapply list_elem_of_lookup_2, Hj.
Qed.

(** Two runs in step: [stA] has seen [n] and then what [stB] has seen, and
    [stB] started at the successor [n1] of [n].  When [stA] stops, [stB]
    stops at most one pass later, with a loop of the same canonical form. *)
Lemma runs_in_step k n n1 fuel :
  2 <= k -> step_value n = Ok n1 ->
  forall stA stB stA',
    loop_inv (below (10 ^ k)) stA -> loop_inv (below (10 ^ k)) stB ->
    sequence stA = n :: sequence stB ->
    current_number stA = current_number stB ->
    (exists q, sequence stB ++ [current_number stB] = n1 :: q) ->
    while_loop fuel stA = Ok stA' ->
    exists stB',
      while_loop (S fuel) stB = Ok stB' /\ loop_of_state stB' = loop_of_state stA'.
Proof.
  intros Hk Hn1. induction fuel as [|fuel IH];
    intros stA stB stA' HinvA HinvB Hseq Hcur [q Hq] Hrun; [discriminate |].
  rewrite while_loop_S in Hrun.
  pose proof HinvA as (HndA & HmapA & _). pose proof HinvB as (_ & HmapB & _).
  destruct (seen_numbers stA !! current_number stA) as [i|] eqn:HseenA.
  - injection Hrun as <-. pose proof HseenA as Hi. apply HmapA in Hi.
    rewrite Hseq in Hi. destruct i as [|i]; cbn in Hi.
    + injection Hi as Hn. rewrite Hseq in HndA.
      apply NoDup_cons in HndA as [Hfresh HndB'].
      pose proof (lookup_none_fresh _ stB n HinvB Hfresh) as HseenB.
      rewrite Hcur in Hn. rewrite Hn in HseenB.
      destruct (loop_body_inv _ (below_step k Hk) stB HinvB HseenB)
        as (r & Hr & Hbody & HinvB1).
      assert (next_number (current_number stB) r = n1) as Hnext.
      { unfold step_value in Hn1. rewrite Hn, Hr in Hn1.
        cbn [mbind outcome_bind] in Hn1. congruence. }
      rewrite Hnext in Hbody, HinvB1.
      eexists. split.
      * rewrite while_loop_S, HseenB, Hbody. cbn [mbind outcome_bind].
        rewrite while_loop_S. cbn [seen_numbers current_number].
        destruct HinvB1 as (_ & HmapB1 & _). cbn [seen_numbers sequence] in HmapB1.
        assert ((<[current_number stB := length (sequence stB)]> (seen_numbers stB))
                  !! n1 = Some O) as ->; [|reflexivity].
        apply HmapB1. rewrite Hq. reflexivity.
      * unfold loop_of_state. cbn [seen_numbers current_number sequence].
        destruct HinvB1 as (_ & HmapB1 & _). cbn [seen_numbers sequence] in HmapB1.
        assert ((<[current_number stB := length (sequence stB)]> (seen_numbers stB))
                  !! n1 = Some O) as -> by (apply HmapB1; rewrite Hq; reflexivity).
        rewrite HseenA, Hseq, <- Hn. cbn [drop].
        change (sequence stB ++ [n]) with (rotation 1 (n :: sequence stB)).
        apply get_canonical_loop_rotation; [discriminate |].
        apply least_once_NoDup. apply NoDup_cons. split; assumption.
    + exists stB. apply HmapB in Hi. split.
      * rewrite while_loop_S, <- Hcur, Hi. reflexivity.
      * unfold loop_of_state. rewrite <- Hcur, Hi, HseenA, Hseq. reflexivity.
  - assert (current_number stB ∉ sequence stB) as Hfresh.
    { intros Hin. apply list_elem_of_lookup in Hin as [j Hj].
      assert (sequence stA !! S j = Some (current_number stA)) as Hj'
        by (rewrite Hseq, Hcur; exact Hj).
      apply HmapA in Hj'. congruence. }
    pose proof (lookup_none_fresh _ stB _ HinvB Hfresh) as HseenB.
    destruct (loop_body_inv _ (below_step k Hk) stA HinvA HseenA)
      as (r & Hr & HbodyA & HinvA1).
    destruct (loop_body_inv _ (below_step k Hk) stB HinvB HseenB)
      as (r' & Hr' & HbodyB & HinvB1).
    rewrite <- Hcur, Hr in Hr'. injection Hr' as <-.
    rewrite HbodyA in Hrun. cbn [mbind outcome_bind] in Hrun.
    destruct (IH _ _ stA' HinvA1 HinvB1) as (stB' & HrunB & Hloop).
    + cbn [sequence]. rewrite Hseq, Hcur. reflexivity.
    + cbn [current_number]. rewrite Hcur. reflexivity.
    + cbn [sequence current_number]. rewrite Hq. eexists. reflexivity.
    + exact Hrun.
    + exists stB'. split; [|exact Hloop].
      rewrite while_loop_S, HseenB, HbodyB. cbn [mbind outcome_bind]. exact HrunB.
Qed.

Lemma ends_in_successor n n1 t :
  0 <= n -> step_value n = Ok n1 -> ends_in n t -> ends_in n1 t.
Proof.
  intros Hn Hn1 [fuel Hrun]. set (k := Z.max 2 (n + 1)).
  assert (2 <= k) as Hk by lia.
  pose proof (below_pow n Hn) as Hbn. fold k in Hbn.
  pose proof (step_value_below k n n1 Hk Hbn Hn1) as Hbn1.
  rewrite find_ending_int in Hrun by exact Hn.
  destruct (while_loop fuel (initial_state n)) as [stA' | e |] eqn:Hloop;
    cbn [mbind outcome_bind] in Hrun; try discriminate.
  destruct fuel as [|fuel]; [discriminate |].
  rewrite while_loop_S in Hloop.
  pose proof (loop_inv_initial _ n Hbn) as Hinit.
  assert (seen_numbers (initial_state n) !! current_number (initial_state n) = None)
    as Hseen by apply lookup_empty.
  destruct (loop_body_inv _ (below_step k Hk) _ Hinit Hseen) as (r & Hr & Hbody & HinvA).
  rewrite Hseen, Hbody in Hloop. cbn [mbind outcome_bind] in Hloop.
  assert (next_number n r = n1) as Hnext.
  { unfold step_value in Hn1. cbn [initial_state current_number] in Hr.
    rewrite Hr in Hn1. cbn [mbind outcome_bind] in Hn1. congruence. }
  cbn [initial_state current_number sequence seen_numbers] in *.
  rewrite Hnext in *.
  destruct (runs_in_step k n n1 fuel Hk Hn1 _ (initial_state n1) stA' HinvA
              (loop_inv_initial _ n1 Hbn1)) as (stB' & HrunB & Hsame).
  - reflexivity.
  - reflexivity.
  - exists []. reflexivity.
  - exact Hloop.
  - exists (S fuel). rewrite find_ending_int by apply Hbn1.
    rewrite HrunB. cbn [mbind outcome_bind]. rewrite Hsame. exact Hrun.
Qed.

(** X8: a value and its successor under the reverse-subtract step end in
    the same canonical loop. *)
Theorem successor_same_loop n n1 t :
  0 <= n -> step_value n = Ok n1 -> (ends_in n t <-> ends_in n1 t).
Proof.
  intros Hn Hn1. split; [apply ends_in_successor; assumption |].
  intros Hend. destruct (find_ending_total n Hn) as (fuel0 & t' & Ht').
  assert (ends_in n t') as Hend' by (exists fuel0; apply Ht'; lia).
  pose proof (ends_in_successor n n1 t' Hn Hn1 Hend') as Hend1.
  assert (0 <= n1) as Hn1pos
    by (apply (step_value_below (Z.max 2 (n + 1)) n n1 ltac:(lia) (below_pow n Hn) Hn1)).
  rewrite (ends_in_functional n1 t t' Hn1pos Hend Hend1). exact Hend'.
Qed.

Lemma successor_same_loop_witness :
  ends_in 12345 [2178; 6534] <-> ends_in 41976 [2178; 6534].
Proof.
  apply (successor_same_loop 12345 41976); [lia | vm_compute; reflexivity].
Defined.

Lemma chain_ends_in l n t :
  chain (n :: l) -> 0 <= n -> ends_in n t ->
  forall x, x ∈ n :: l -> ends_in x t.
Proof.
  revert n. induction l as [|y l IH]; intros n Hc Hn Hend x Hx.
  - apply list_elem_of_singleton in Hx as ->. exact Hend.
  - inversion Hc as [| |? ? ? Hstep Hc']; subst.
    apply elem_of_cons in Hx as [-> | Hx]; [exact Hend |].
    apply (IH y Hc'); [| |exact Hx].
    + apply (step_value_below (Z.max 2 (n + 1)) n y ltac:(lia) (below_pow n Hn) Hstep).
    + apply (ends_in_successor n y t Hn Hstep Hend).
Qed.

(** X9: every value a run visits ends in the loop the run returns; in
    particular each member of a returned loop, taken as a start, ends in
    that same loop. *)
Theorem visited_values_same_loop fuel n t :
  0 <= n -> find_ending_loop_for_number fuel (PyInt n) = Ok t ->
  (forall x, x ∈ t -> ends_in x t)
  /\ (forall st x, while_loop fuel (initial_state n) = Ok st ->
        x ∈ sequence st -> ends_in x t).
Proof.
  intros Hn Hrun.
  destruct (finished_run fuel n t Hn Hrun)
    as (st & i & more & Hloop & _ & _ & Hcan & Hc & Hstart).
  assert (forall x, x ∈ sequence st -> ends_in x t) as Hall.
  { intros x Hx. rewrite Hstart in Hc.
    apply (chain_ends_in more n t Hc Hn); [exists fuel; exact Hrun |].
    rewrite <- Hstart. apply elem_of_app. left. exact Hx. }
  split.
  - intros x Hx. apply Hall.
    pose proof (canonical_perm (drop i (sequence st)) t Hcan) as Hperm.
    rewrite Hperm in Hx. eapply subseteq_drop, Hx.
  - intros st' x Hloop' Hx. rewrite Hloop in Hloop'. injection Hloop' as <-.
    apply Hall. exact Hx.
Qed.

Lemma visited_values_same_loop_witness :
  (forall x, x ∈ [2178; 6534] -> ends_in x [2178; 6534])
  /\ (forall st x, while_loop 100 (initial_state 12345) = Ok st ->
        x ∈ sequence st -> ends_in x [2178; 6534]).
Proof.
  apply (visited_values_same_loop 100 12345); [lia | vm_compute; reflexivity].
Defined.

(** ** What the frequency table records *)

Lemma count_of_increment loop t freqs :
  count_of t (increment loop freqs)
  = count_of t freqs + (if decide (loop = t) then 1 else 0).
Proof.
  induction freqs as [|[k c] freqs IH]; cbn [increment count_of].
  - destruct (decide (loop = t)); lia.
  - destruct (decide (k = loop)) as [-> | Hne]; cbn [count_of].
    + destruct (decide (loop = t)); lia.
    + destruct (decide (k = t)) as [-> | Hkt]; [|exact IH].
      destruct (decide (loop = t)); [congruence | lia].
Qed.

Lemma for_loop_counts fuel range acc freqs :
  for_loop fuel range acc = Ok freqs ->
  exists loops,
    Forall2 (fun i t => find_ending_loop_for_number fuel (PyInt i) = Ok t) range loops
    /\ forall t,
         count_of t freqs
         = count_of t acc + Z.of_nat (length (filter (fun u => u = t) loops)).
Proof.
  revert acc. induction range as [|i range IH]; intros acc Hrun; cbn [for_loop] in Hrun.
  - injection Hrun as <-. exists []. split; [constructor |].
    intros t. cbn. lia.
  - destruct (find_ending_loop_for_number fuel (PyInt i)) as [loop | e |] eqn:Hloop;
      cbn [mbind outcome_bind] in Hrun; try discriminate.
    destruct (IH _ Hrun) as (loops & Hall & Hcount).
    exists (loop :: loops). split; [constructor; assumption |].
    intros t. rewrite Hcount, count_of_increment, filter_cons.
    destruct (decide (loop = t)); cbn [length]; lia.
Qed.

(** X10: the frequency table is the tally of the range: the count recorded
    for a loop is the number of starting values of the range whose cycle
    detection returned that loop (0 for a loop that is not listed). *)
Theorem frequency_table_tallies fuel start_range end_range r :
  analyze_number_range fuel start_range end_range = Ok r ->
  exists loops,
    Forall2 (fun i t => find_ending_loop_for_number fuel (PyInt i) = Ok t)
      (py_range start_range (end_range + 1)) loops
    /\ forall t,
         count_of t (loop_frequencies r)
         = Z.of_nat (length (filter (fun u => u = t) loops)).
Proof.
  unfold analyze_number_range. intros Hrun.
  destruct (for_loop fuel _ []) as [freqs | e |] eqn:Hfreqs;
    cbn [mbind outcome_bind] in Hrun; try discriminate.
  destruct (for_loop_counts _ _ _ _ Hfreqs) as (loops & Hall & Hcount).
  exists loops. split; [exact Hall |]. intros t.
  destruct freqs; injection Hrun as <-; cbn [loop_frequencies];
    rewrite Hcount; reflexivity.
Qed.

Lemma frequency_table_tallies_witness :
  exists r,
    analyze_number_range 100 8 12 = Ok r
    /\ loop_frequencies r = [([9; 81; 63; 27; 45], 4); ([0], 1)]
    /\ exists loops,
         Forall2 (fun i t => find_ending_loop_for_number 100 (PyInt i) = Ok t)
           (py_range 8 (12 + 1)) loops
         /\ forall t,
              count_of t (loop_frequencies r)
              = Z.of_nat (length (filter (fun u => u = t) loops)).
Proof.
  eexists. split; [vm_compute; reflexivity |]. split; [reflexivity |].
  apply (frequency_table_tallies 100 8 12). vm_compute. reflexivity.
Defined.

Lemma increment_positive loop freqs :
  Forall (fun item => 1 <= snd item) freqs ->
  Forall (fun item => 1 <= snd item) (increment loop freqs).
Proof.
  induction 1 as [|[k c] freqs Hc Hall IH]; cbn [increment].
  - repeat constructor. cbn [snd]. lia.
  - cbn [snd] in Hc. destruct (decide (k = loop)); constructor; cbn [snd]; auto; lia.
Qed.

Lemma for_loop_positive fuel range acc freqs :
  for_loop fuel range acc = Ok freqs ->
  Forall (fun item => 1 <= snd item) acc ->
  Forall (fun item => 1 <= snd item) freqs.
Proof.
  revert acc. induction range as [|i range IH]; intros acc Hrun Hacc; cbn [for_loop] in Hrun.
  - injection Hrun as <-. exact Hacc.
  - destruct (find_ending_loop_for_number fuel (PyInt i)) as [loop | e |];
      cbn [mbind outcome_bind] in Hrun; try discriminate.
    apply (IH _ Hrun). apply increment_positive. exact Hacc.
Qed.

(** X11: in the frequency table each loop is listed once and with a count of
    at least one, and the table is empty only for an empty range. *)
Theorem frequency_table_entries fuel start_range end_range r :
  analyze_number_range fuel start_range end_range = Ok r ->
  NoDup (map fst (loop_frequencies r))
  /\ Forall (fun item => 1 <= snd item) (loop_frequencies r)
  /\ (loop_frequencies r = [] <-> end_range < start_range).
Proof.
  unfold analyze_number_range. intros Hrun.
  destruct (for_loop fuel _ []) as [freqs | e |] eqn:Hfreqs;
    cbn [mbind outcome_bind] in Hrun; try discriminate.
  destruct (for_loop_result _ _ _ _ Hfreqs) as (Hsum & Hnd & Hne).
  pose proof (for_loop_positive _ _ _ _ Hfreqs (Forall_nil_2 _)) as Hpos.
  destruct (py_range_facts start_range (end_range + 1)) as [Hlen _].
  assert (loop_frequencies r = freqs) as ->
    by (destruct freqs; injection Hrun as <-; reflexivity).
  split_and!; [apply Hnd; constructor | exact Hpos |].
  split.
  - intros ->. unfold total_count in Hsum. cbn [foldr] in Hsum. lia.
  - intros Hlt. unfold py_range in Hfreqs. rewrite seqZ_nil in Hfreqs by lia.
    cbn [for_loop] in Hfreqs. congruence.
Qed.

Lemma frequency_table_entries_witness :
  exists r,
    analyze_number_range 100 8 12 = Ok r
    /\ NoDup (map fst (loop_frequencies r))
    /\ Forall (fun item => 1 <= snd item) (loop_frequencies r)
    /\ (loop_frequencies r = [] <-> 12 < 8).
Proof.
  eexists. split; [vm_compute; reflexivity |].
  apply (frequency_table_entries 100 8 12). vm_compute. reflexivity.
Defined.

(** ** The transcript of a verbose run *)

Lemma loop_body_verbose_result step st cur key :
  snd (loop_body_verbose step st cur key) = loop_body st cur key
  /\ (forall st', loop_body st cur key = Ok st' ->
        length (fst (loop_body_verbose step st cur key)) = 3%nat).
Proof.
  unfold loop_body_verbose, loop_body.
  destruct (reverse_number cur) as [r | e |]; cbn [mbind outcome_bind fst snd];
    (split; [reflexivity | intros st'; try discriminate]).
  reflexivity.
Qed.

Lemma while_loop_verbose_result fuel step st :
  snd (while_loop_verbose fuel step st) = while_loop fuel st
  /\ (forall st', while_loop fuel st = Ok st' ->
        exists k, length (fst (while_loop_verbose fuel step st)) = (3 * k)%nat
                  /\ length (sequence st') = (length (sequence st) + k)%nat).
Proof.
  revert step st. induction fuel as [|fuel IH]; intros step st.
  - split; [reflexivity | discriminate].
  - cbn [while_loop_verbose]. rewrite while_loop_S.
    destruct (seen_numbers st !! current_number st).
    + split; [reflexivity |]. intros st' [= <-]. exists O. split; [reflexivity | lia].
    + destruct (loop_body_verbose_result step st (PyInt (current_number st))
                  (current_number st)) as [Hres Hlen].
      destruct (loop_body_verbose step st _ _) as [out res]. cbn [fst snd] in *.
      rewrite <- Hres. destruct res as [st1 | e |]; cbn [mbind outcome_bind];
        [| split; [reflexivity | discriminate] ..].
      destruct (IH (step + 1) st1) as [Hres' Hlen'].
      destruct (while_loop_verbose fuel (step + 1) st1) as [out' res'].
      cbn [fst snd] in *. split; [exact Hres' |].
      intros st' Hrun. destruct (Hlen' st' Hrun) as (k & Hk & Hseq).
      symmetry in Hres.
      exists (S k). rewrite length_app, (Hlen st1 Hres), Hk, Hseq.
      destruct (loop_body_step _ _ _ Hres) as (_ & -> & _).
      rewrite length_app. cbn [length]. lia.
Qed.

(** X12: the flag [verbose] changes what is printed, never what is returned
    or raised. *)
Theorem verbose_same_result fuel v :
  snd (find_ending_loop_verbose fuel v) = find_ending_loop_for_number fuel v.
Proof.
  unfold find_ending_loop_verbose, find_ending_loop_for_number.
  destruct (negb (isinstance_int v) || lt_zero v); [reflexivity |].
  assert (forall (p : transcript * outcome loop_state) (h : transcript),
            snd (let (out, res) := p in
                 match res with
                 | Ok st => let (out', res') := loop_of_state_verbose st in
                            (h ++ out ++ out', res')
                 | Raise e => (h ++ out, Raise e)
                 | OutOfFuel => (h ++ out, OutOfFuel)
                 end)
            = (st ← snd p; loop_of_state st)) as Hfinish.
  { intros [out [st | e |]] h; cbn [snd mbind outcome_bind]; try reflexivity.
    unfold loop_of_state_verbose, loop_of_state.
    destruct (seen_numbers st !! current_number st); [|reflexivity].
    destruct (get_canonical_loop _); reflexivity. }
  rewrite Hfinish. f_equal. destruct v as [n | b | s |]; try reflexivity.
  - apply while_loop_verbose_result.
  - destruct fuel as [|fuel]; [reflexivity |].
    destruct (loop_body_verbose_result 0 (initial_state (Z.b2z b)) (PyBool b) (Z.b2z b))
      as [Hres _].
    destruct (loop_body_verbose 0 _ _ _) as [out res]. cbn [snd] in Hres.
    rewrite <- Hres. destruct res as [st1 | e |]; cbn [snd mbind outcome_bind];
      try reflexivity.
    destruct (while_loop_verbose_result fuel 1 st1) as [Hres' _].
    destruct (while_loop_verbose fuel 1 st1). exact Hres'.
Qed.

(** X13: the transcript of a successful verbose run consists of the two
    header lines, three lines for each value visited, and four closing
    lines: where the current value was first seen, the raw loop, the
    canonical loop that is returned, and a line of dashes. *)
Theorem verbose_transcript fuel n out t :
  find_ending_loop_verbose fuel (PyInt n) = (out, Ok t) ->
  exists st i body,
    while_loop fuel (initial_state n) = Ok st
    /\ seen_numbers st !! current_number st = Some i
    /\ length body = (3 * length (sequence st))%nat
    /\ out
       = [("010"%char :: lit "Processing number: ") ++ str_int n; dashes]
         ++ body
         ++ [lit "  Loop detected. Current number " ++ str_int (current_number st)
               ++ lit " was first seen at sequence index "
               ++ str_int (Z.of_nat i) ++ lit ".";
             lit "  Raw loop sequence: " ++ str_list (drop i (sequence st));
             lit "  Canonical loop: " ++ str_list t;
             dashes].
Proof.
  unfold find_ending_loop_verbose.
  destruct (negb (isinstance_int (PyInt n)) || lt_zero (PyInt n)); [discriminate |].
  destruct (while_loop_verbose_result fuel 0 (initial_state n)) as [Hres Hlen].
  destruct (while_loop_verbose fuel 0 (initial_state n)) as [body res].
  cbn [fst snd] in *. destruct res as [st | e |]; try discriminate.
  unfold loop_of_state_verbose.
  destruct (seen_numbers st !! current_number st) as [i|] eqn:Hseen; [|discriminate].
  destruct (get_canonical_loop (drop i (sequence st))) as [c | e |]; try discriminate.
  intros [= <- <-]. exists st, i, body.
  destruct (Hlen st (eq_sym Hres)) as (k & Hk & Hseq). cbn in Hseq. subst k.
  split_and!; [symmetry; exact Hres | exact Hseen | exact Hk | reflexivity].
Qed.

Lemma verbose_transcript_witness :
  exists out st i body,
    find_ending_loop_verbose 100 (PyInt 9) = (out, Ok [9; 81; 63; 27; 45])
    /\ while_loop 100 (initial_state 9) = Ok st
    /\ seen_numbers st !! current_number st = Some i
    /\ length body = (3 * length (sequence st))%nat
    /\ out
       = [("010"%char :: lit "Processing number: ") ++ str_int 9; dashes]
         ++ body
         ++ [lit "  Loop detected. Current number " ++ str_int (current_number st)
               ++ lit " was first seen at sequence index "
               ++ str_int (Z.of_nat i) ++ lit ".";
             lit "  Raw loop sequence: " ++ str_list (drop i (sequence st));
             lit "  Canonical loop: " ++ str_list [9; 81; 63; 27; 45];
             dashes].
Proof.
  assert (find_ending_loop_verbose 100 (PyInt 9)
          = (fst (find_ending_loop_verbose 100 (PyInt 9)), Ok [9; 81; 63; 27; 45]))
    as Hrun by (vm_compute; reflexivity).
  destruct (verbose_transcript 100 9 _ _ Hrun) as (st & i & body & H).
  exists (fst (find_ending_loop_verbose 100 (PyInt 9))), st, i, body.
  split; [exact Hrun | exact H].
Defined.

(** ** Divisibility by nine *)

Lemma value_msb_mod9 ds : value_msb ds mod 9 = foldr Z.add 0 ds mod 9.
Proof.
  induction ds as [|d ds IH] using rev_ind; [reflexivity |].
  rewrite value_msb_snoc, foldr_app. cbn [foldr].
  assert (forall l a, foldr Z.add a l = foldr Z.add 0 l + a) as Hshift.
  { intros l. induction l as [|x l IHl]; intros a; cbn [foldr]; [lia |].
    rewrite IHl. lia. }
  rewrite (Hshift ds (d + 0)).
  replace (10 * value_msb ds + d) with (value_msb ds + d + value_msb ds * 9) by lia.
  rewrite Z_mod_plus_full, Z.add_mod, IH, <- Z.add_mod by lia.
  f_equal. lia.
Qed.

Lemma foldr_add_rev (l : list Z) : foldr Z.add 0 (rev l) = foldr Z.add 0 l.
Proof.
  assert (forall l a, foldr Z.add a l = foldr Z.add 0 l + a) as Hshift.
  { intros l'. induction l' as [|x l' IHl]; intros a; cbn [foldr]; [lia |].
    rewrite IHl. lia. }
  induction l as [|x l IH]; [reflexivity |].
  cbn [rev foldr]. rewrite foldr_app. cbn [foldr].
  rewrite (Hshift (rev l)), IH. lia.
Qed.

(** A number and its reversal leave the same remainder modulo nine. *)
Lemma reverse_number_mod9 n r :
  0 <= n -> reverse_number (PyInt n) = Ok r -> r mod 9 = n mod 9.
Proof.
  intros Hn. rewrite reverse_number_digits by exact Hn. intros [= <-].
  destruct (digits_of_nonneg n Hn) as (_ & _ & Hval & _). cbn zeta in Hval.
  rewrite <- Hval at 2. rewrite !value_msb_mod9, foldr_add_rev.
  unfold reversed_digits. cbn zeta.
  destruct (length _ =? 1)%nat; [|reflexivity].
  rewrite foldr_app. cbn [foldr]. reflexivity.
Qed.

Lemma step_value_divisible x y :
  0 <= x -> step_value x = Ok y -> (9 | y).
Proof.
  intros Hx. unfold step_value.
  destruct (reverse_number (PyInt x)) as [r | e |] eqn:Hr;
    cbn [mbind outcome_bind]; try discriminate.
  intros [= <-]. pose proof (reverse_number_mod9 x r Hx Hr) as Hmod.
  apply Z.mod_divide; [lia |]. unfold next_number.
  destruct (Z.eqb_spec x r); [reflexivity |].
  destruct (Z.gtb_spec x r).
  - rewrite Zminus_mod, Hmod, Z.sub_diag. reflexivity.
  - rewrite Zminus_mod, Hmod, Z.sub_diag. reflexivity.
Qed.

Lemma chain_tail_divisible l :
  chain l -> Forall (fun y => 0 <= y) l -> Forall (fun y => (9 | y)) (tail l).
Proof.
  induction 1 as [| x | x y l Hstep Hc IH]; intros Hpos; cbn [tail].
  - constructor.
  - constructor.
  - apply Forall_cons in Hpos as [Hx Hpos]. constructor.
    + apply (step_value_divisible x y Hx Hstep).
    + apply (IH Hpos).
Qed.

(** X14: every value a run visits after its start is a multiple of nine,
    and so is every member of the returned loop. *)
Theorem visited_values_divisible fuel n t :
  0 <= n -> find_ending_loop_for_number fuel (PyInt n) = Ok t ->
  Forall (fun z => (9 | z)) t
  /\ (forall st, while_loop fuel (initial_state n) = Ok st ->
        Forall (fun z => (9 | z)) (tail (sequence st))).
Proof.
  intros Hn Hrun. split.
  - pose proof (returned_loop_cycle_helper fuel n t Hn Hrun) as Hc.
    destruct (find_ending_partial fuel n t Hn Hrun) as (m & rest & -> & _ & Hpos & _).
    change (take 1 (m :: rest)) with [m] in Hc. cbn [app] in Hc.
    apply chain_tail_divisible in Hc.
    + cbn [tail] in Hc. apply Forall_app in Hc as [Hrest Hm].
      apply Forall_cons in Hm as [Hm _]. constructor; assumption.
    + change (m :: rest ++ [m]) with ((m :: rest) ++ [m]).
      apply Forall_app. split; [exact Hpos |].
      apply Forall_cons in Hpos as [Hm _]. repeat constructor. exact Hm.
  - destruct (finished_run fuel n t Hn Hrun)
      as (st & i & more & Hloop & Hinv & Hi & _ & Hc & _).
    intros st' Hloop'. rewrite Hloop in Hloop'. injection Hloop' as <-.
    destruct Hinv as (_ & _ & Hall & Hcur).
    apply chain_tail_divisible in Hc.
    + destruct (sequence st) as [|s0 seq]; [constructor |].
      cbn [app tail] in *. apply Forall_app in Hc as [Hc _]. exact Hc.
    + apply Forall_app. split.
      * eapply Forall_impl; [exact Hall |]. intros z Hz. apply Hz.
      * repeat constructor. apply Hcur.
Qed.

Lemma visited_values_divisible_witness :
  Forall (fun z => (9 | z)) [2178; 6534]
  /\ (forall st, while_loop 100 (initial_state 12345) = Ok st ->
        Forall (fun z => (9 | z)) (tail (sequence st))).
Proof.
  apply (visited_values_divisible 100 12345); [lia | vm_compute; reflexivity].
Defined.

(** ** Reversing twice *)

Lemma reverse_number_repr n ds :
  decimal_repr ds n -> (2 <= length ds)%nat ->
  reverse_number (PyInt n) = Ok (value_msb (rev ds)).
Proof.
  intros Hrepr Hlen. destruct (decimal_repr_unique ds n Hrepr) as [Hn ->].
  rewrite reverse_number_digits by exact Hn. f_equal. f_equal.
  unfold reversed_digits, decimal_digits in *. cbn zeta.
  rewrite length_rev in Hlen. rewrite rev_involutive.
  destruct (Nat.eqb_spec (length (digits_lsb (S (Z.to_nat (Z.log2 n))) n)) 1);
    [lia | reflexivity].
Qed.

(** X15: reversing twice gives the number back exactly when it is below 100
    or does not end in the digit 0; a trailing zero of a number from 100 on
    is lost for good (100 reverses to 1, and 1 to 10). *)
Theorem reverse_number_twice n :
  0 <= n ->
  exists r r',
    reverse_number (PyInt n) = Ok r
    /\ reverse_number (PyInt r) = Ok r'
    /\ (r' = n <-> n < 100 \/ n mod 10 <> 0).
Proof.
  intros Hn. destruct (Z.lt_ge_cases n 10) as [Hsmall | Hbig].
  - exists (10 * n), n. split; [apply reverse_number_small; lia |].
    split; [|split; [lia | reflexivity]].
    destruct (Z.eq_dec n 0) as [-> | Hnz]; [reflexivity |].
    rewrite (reverse_number_repr (10 * n) [n; 0]).
    + reflexivity.
    + split_and!; [repeat constructor; unfold is_digit; lia | | unfold value_msb; cbn; lia].
      exists n, [0]. split; [reflexivity | left; exact Hnz].
    + cbn. lia.
  - destruct (digits_of_nonneg n Hn) as (Hds & Hne & Hval & Hone & Hmany).
    cbn zeta in *. specialize (Hmany Hbig).
    pose proof (reverse_number_digits n Hn) as Hr. unfold reversed_digits in Hr.
    cbn zeta in Hr. rewrite digits_lsb_S in *.
    destruct (Z.ltb_spec n 10) as [? | _]; [lia |].
    set (rest := digits_lsb (Z.to_nat (Z.log2 n)) (n / 10)) in *.
    set (d0 := n mod 10) in *.
    assert ((length (d0 :: rest) =? 1)%nat = false) as Hlen1.
    { apply Nat.eqb_neq. intros Hl. apply Hone in Hl. lia. }
    rewrite Hlen1 in Hr. apply Forall_cons in Hds as [Hd0 Hrest].
    pose proof (value_msb_bound rest Hrest) as [Hlo Hhi].
    assert (Forall is_digit (rev (d0 :: rest))) as Hrev
      by (apply Forall_rev; constructor; assumption).
    pose proof (value_msb_bound (rev (d0 :: rest)) Hrev) as [_ Hnhi].
    rewrite Hval, length_rev in Hnhi.
    exists (value_msb (d0 :: rest)). destruct (Z.eq_dec d0 0) as [Hz | Hnz].
    + rewrite value_msb_cons, Hz, Z.mul_0_l, Z.add_0_l in *.
      destruct (Z.lt_ge_cases n 100) as [Hlt | Hge].
      * exists n. split; [exact Hr |]. split; [|split; [left; exact Hlt | reflexivity]].
        destruct rest as [|a [|b rest']].
        -- cbn [length] in Hlen1. discriminate.
        -- apply Forall_cons in Hrest as [Ha _]. unfold is_digit in Ha.
           unfold value_msb in Hval |- *. cbn [rev app fold_left] in Hval |- *.
           rewrite reverse_number_small by lia. f_equal. lia.
        -- exfalso. cbn [length] in Hmany.
           assert (10 ^ 2 <= 10 ^ (Z.of_nat (S (S (S (length rest')))) - 1))
             by (apply Z.pow_le_mono_r; lia).
           lia.
      * assert (2 <= Z.of_nat (length rest)) as Hk.
        { cbn [length] in Hnhi.
          destruct (Z.le_gt_cases 2 (Z.of_nat (length rest))) as [|Hshort]; [assumption |].
          assert (10 ^ Z.of_nat (S (length rest)) <= 10 ^ 2)
            by (apply Z.pow_le_mono_r; lia).
          lia. }
        destruct (reverse_number_bound (value_msb rest) (Z.of_nat (length rest))
                    (conj Hlo Hhi) Hk) as (r' & Hr' & Hr'b).
        exists r'. split; [exact Hr |]. split; [exact Hr' |].
        cbn [length] in Hmany.
        replace (Z.of_nat (S (length rest)) - 1) with (Z.of_nat (length rest)) in Hmany
          by lia.
        split; [intros ->; lia |]. intros [Hlt | Hmod]; [lia | congruence].
    + exists n. split; [exact Hr |]. split; [|split; [right; exact Hnz | reflexivity]].
      rewrite (reverse_number_repr (value_msb (d0 :: rest)) (d0 :: rest)).
      * rewrite Hval. reflexivity.
      * split_and!; [constructor; assumption | | reflexivity].
        exists d0, rest. split; [reflexivity | left; exact Hnz].
      * destruct rest; [cbn [length] in Hlen1; discriminate | cbn [length]; lia].
Qed.

Lemma reverse_number_twice_witness :
  exists r r',
    reverse_number (PyInt 120) = Ok r
    /\ reverse_number (PyInt r) = Ok r'
    /\ (r' = 120 <-> 120 < 100 \/ 120 mod 10 <> 0).
Proof. apply (reverse_number_twice 120). lia. Defined.

(** ** More on runs and ranges *)

(** X16: the state a run stops in: the visited values are distinct and begin
    with the start, [seen_numbers] maps each of them to its position in
    [sequence] and nothing else, the current value is one of them, and each
    value is followed by its successor. *)
Theorem finished_run_state fuel n st :
  0 <= n -> while_loop fuel (initial_state n) = Ok st ->
  NoDup (sequence st)
  /\ (forall x i, seen_numbers st !! x = Some i <-> sequence st !! i = Some x)
  /\ head (sequence st) = Some n
  /\ current_number st ∈ sequence st
  /\ chain (sequence st ++ [current_number st]).
Proof.
  intros Hn Hloop.
  pose proof (while_loop_inv _ (below_step (Z.max 2 (n + 1)) ltac:(lia)) fuel _
                (loop_inv_initial _ n (below_pow n Hn))) as Hw.
  rewrite Hloop in Hw. destruct Hw as ((Hnd & Hmap & _) & [i Hseen] & _).
  destruct (while_loop_chain _ _ _ Hloop) as (Hc & more & Hmore);
    [cbn; constructor |].
  apply Hmap in Hseen.
  split_and!; [exact Hnd | exact Hmap | | eapply list_elem_of_lookup_2, Hseen | exact Hc].
  cbn [initial_state sequence current_number app] in Hmore.
  destruct (sequence st) as [|s0 seq]; [rewrite lookup_nil in Hseen; discriminate |].
  cbn [app] in Hmore. injection Hmore as -> _. reflexivity.
Qed.

Lemma finished_run_state_witness :
  exists st,
    while_loop 100 (initial_state 12345) = Ok st
    /\ NoDup (sequence st)
    /\ (forall x i, seen_numbers st !! x = Some i <-> sequence st !! i = Some x)
    /\ head (sequence st) = Some 12345
    /\ current_number st ∈ sequence st
    /\ chain (sequence st ++ [current_number st]).
Proof.
  destruct (while_loop 100 (initial_state 12345)) as [st | e |] eqn:Hloop;
    [| vm_compute in Hloop; discriminate ..].
  exists st. split; [reflexivity |].
  apply (finished_run_state 100 12345); [lia | exact Hloop].
Defined.

(** X17: a bound on the number of passes: a run started below [10 ^ k],
    [k >= 2], has finished after [10 ^ k + 1] evaluations of the loop
    condition, with a result that more fuel does not change. *)
Theorem iteration_bound k n :
  2 <= k -> 0 <= n < 10 ^ k ->
  exists t, forall fuel,
    (Z.to_nat (10 ^ k) < fuel)%nat -> find_ending_loop_for_number fuel (PyInt n) = Ok t.
Proof.
  intros Hk Hn.
  pose proof (loop_inv_initial _ n (Hn : below (10 ^ k) n)) as Hinit.
  destruct (while_loop_terminates k (S (Z.to_nat (10 ^ k))) _ Hk Hinit) as [st Hst];
    [lia |].
  pose proof (while_loop_inv _ (below_step k Hk) (S (Z.to_nat (10 ^ k))) _ Hinit) as Hw.
  rewrite Hst in Hw. destruct Hw as (Hinv & Hseen & _).
  destruct (loop_of_state_shape _ st Hinv Hseen) as (m & rest & Hl & _).
  exists (m :: rest). intros fuel Hfuel.
  rewrite find_ending_int by apply Hn.
  rewrite (while_loop_fuel_mono _ fuel _ _ Hst ltac:(lia)). exact Hl.
Qed.

Lemma iteration_bound_witness :
  exists t, forall fuel,
    (Z.to_nat (10 ^ 2) < fuel)%nat -> find_ending_loop_for_number fuel (PyInt 9) = Ok t.
Proof. apply (iteration_bound 2 9); lia. Defined.

Lemma for_loop_never_raises fuel range acc e :
  Forall (fun i => 0 <= i) range -> for_loop fuel range acc <> Raise e.
Proof.
  intros Hall. revert acc. induction Hall as [|i range Hi _ IH]; intros acc;
    cbn [for_loop]; [discriminate |].
  pose proof (find_ending_shape (below (10 ^ Z.max 2 (i + 1))) fuel i
                (below_step (Z.max 2 (i + 1)) ltac:(lia)) Hi (below_pow i Hi)) as Hs.
  destruct (find_ending_loop_for_number fuel (PyInt i)) as [loop | e' |];
    cbn [mbind outcome_bind]; [apply IH | destruct Hs | discriminate].
Qed.

(** X18: the range analysis raises exactly when its start is negative and
    the range is not empty; from a non-negative start it raises nothing. *)
Theorem analyze_raises_iff fuel start_range end_range :
  (exists e, analyze_number_range fuel start_range end_range = Raise e)
  <-> start_range < 0 /\ start_range <= end_range.
Proof.
  split.
  - intros [e Hrun]. unfold analyze_number_range in Hrun.
    destruct (Z.lt_ge_cases end_range start_range) as [Hempty | Hle].
    { unfold py_range in Hrun. rewrite seqZ_nil in Hrun by lia. discriminate. }
    split; [|exact Hle].
    destruct (Z.lt_ge_cases start_range 0) as [|Hpos]; [assumption | exfalso].
    destruct (for_loop fuel _ []) as [freqs | e' |] eqn:Hfreqs;
      cbn [mbind outcome_bind] in Hrun; [destruct freqs; discriminate | | discriminate].
    apply (for_loop_never_raises fuel _ [] e') in Hfreqs; [exact Hfreqs |].
    destruct (py_range_facts start_range (end_range + 1)) as [_ Hall].
    eapply Forall_impl; [exact Hall |]. intros i Hi. cbn beta in Hi. lia.
  - intros [Hneg Hle]. exists (ValueError guard_message).
    unfold analyze_number_range, py_range.
    rewrite seqZ_cons by lia. rewrite for_loop_negative_start by exact Hneg.
    reflexivity.
Qed.

(** X19: a [bool] start value passes the guard of the cycle detector, which
    tests [isinstance(initial_number, int)], and fails in the first pass of
    the loop with the [ValueError] that [int] raises on the reversed text
    of ["True"] or ["False"]. *)
Theorem bool_start_fails fuel b :
  (0 < fuel)%nat ->
  find_ending_loop_for_number fuel (PyBool b)
  = Raise (InvalidLiteral (rev (str (PyBool b)))).
Proof.
  intros Hfuel. destruct fuel as [|fuel]; [lia |]. destruct b; reflexivity.
Qed.

Lemma bool_start_fails_witness :
  find_ending_loop_for_number 1 (PyBool true)
  = Raise (InvalidLiteral (rev (str (PyBool true)))).
Proof. apply (bool_start_fails 1 true). lia. Defined.

(** X20: digit reversal accepts text: given a string of decimal digits it
    returns the value of the reversed string, a single digit being padded
    with a zero as for a number. *)
Theorem reverse_number_digit_text ds :
  Forall is_digit ds -> ds <> [] ->
  reverse_number (PyStr (map digit_char ds))
  = Ok (value_msb (rev (if (length ds =? 1)%nat then 0 :: ds else ds))).
Proof.
  intros Hds Hne. unfold reverse_number, str. rewrite length_map.
  destruct (length ds =? 1)%nat.
  - change ("0"%char :: map digit_char ds) with (map digit_char (0 :: ds)).
    rewrite <- map_rev. apply int_of_str_digits.
    + apply Forall_rev. constructor; [unfold is_digit; lia | exact Hds].
    + cbn [rev]. intros Hnil. apply app_eq_nil in Hnil as [_ Hnil]. discriminate.
  - rewrite <- map_rev. apply int_of_str_digits; [apply Forall_rev; exact Hds |].
    intros Hnil. apply Hne. rewrite <- (rev_involutive ds), Hnil. reflexivity.
Qed.

Lemma reverse_number_digit_text_witness :
  reverse_number (PyStr (map digit_char [1; 2; 0]))
  = Ok (value_msb (rev (if (length [1; 2; 0] =? 1)%nat then 0 :: [1; 2; 0] else [1; 2; 0]))).
Proof.
  apply (reverse_number_digit_text [1; 2; 0]);
    [repeat constructor; unfold is_digit; lia | discriminate].
Defined.

Lemma analyze_table fuel start_range end_range r :
  analyze_number_range fuel start_range end_range = Ok r ->
  for_loop fuel (py_range start_range (end_range + 1)) [] = Ok (loop_frequencies r).
Proof.
  unfold analyze_number_range.
  destruct (for_loop fuel _ []) as [freqs | e |]; cbn [mbind outcome_bind];
    try discriminate.
  destruct freqs; intros [= <-]; reflexivity.
Qed.

Lemma loops_functional fuel range loops1 loops2 :
  Forall2 (fun i t => find_ending_loop_for_number fuel (PyInt i) = Ok t) range loops1 ->
  Forall2 (fun i t => find_ending_loop_for_number fuel (PyInt i) = Ok t) range loops2 ->
  loops1 = loops2.
Proof.
  intros H1. revert loops2. induction H1 as [|i t range loops1 Hi _ IH];
    intros loops2 H2; inversion H2 as [|? t' ? loops2' Hi' H2']; subst; [reflexivity |].
  f_equal; [congruence | apply IH; exact H2'].
Qed.

(** X21: adjacent ranges add up: the count of every loop over [a..c] is the
    sum of its counts over [a..b] and over [b+1..c]. *)
Theorem adjacent_ranges_add fuel a b c r1 r2 r :
  a <= b + 1 -> b <= c ->
  analyze_number_range fuel a b = Ok r1 ->
  analyze_number_range fuel (b + 1) c = Ok r2 ->
  analyze_number_range fuel a c = Ok r ->
  forall t,
    count_of t (loop_frequencies r)
    = count_of t (loop_frequencies r1) + count_of t (loop_frequencies r2).
Proof.
  intros Hab Hbc H1 H2 H t.
  apply analyze_table, for_loop_counts in H1 as (l1 & Hl1 & Hc1).
  apply analyze_table, for_loop_counts in H2 as (l2 & Hl2 & Hc2).
  apply analyze_table, for_loop_counts in H as (l & Hl & Hc).
  assert (py_range a (c + 1) = py_range a (b + 1) ++ py_range (b + 1) (c + 1)) as Hsplit.
  { unfold py_range.
    replace (c + 1 - a) with ((b + 1 - a) + (c + 1 - (b + 1))) by lia.
    rewrite seqZ_app by lia. do 2 f_equal. lia. }
  rewrite Hsplit in Hl.
  assert (Forall2 (fun i u => find_ending_loop_for_number fuel (PyInt i) = Ok u)
            (py_range a (b + 1) ++ py_range (b + 1) (c + 1)) (l1 ++ l2)) as Hl12
    by (apply Forall2_app; assumption).
  rewrite (loops_functional _ _ _ _ Hl Hl12) in Hc.
  rewrite Hc, Hc1, Hc2, filter_app, length_app. cbn [count_of]. lia.
Qed.

Lemma adjacent_ranges_add_witness :
  exists r1 r2 r,
    analyze_number_range 100 1 10 = Ok r1
    /\ analyze_number_range 100 11 20 = Ok r2
    /\ analyze_number_range 100 1 20 = Ok r
    /\ forall t,
         count_of t (loop_frequencies r)
         = count_of t (loop_frequencies r1) + count_of t (loop_frequencies r2).
Proof.
  eexists. eexists. eexists.
  split; [vm_compute; reflexivity |].
  split; [vm_compute; reflexivity |].
  split; [vm_compute; reflexivity |].
  apply (adjacent_ranges_add 100 1 10 20);
    [lia | lia | vm_compute; reflexivity ..].
Defined.
